(** * A fixed-capacity LRU cache: [LRU Cache/LRUCache.h]

    The class [LRUCache<Key, Value>] keeps a doubly-linked list of
    (key, value) pairs, most recently used first, and a hash map from
    each key to the list iterator of its node.  A [std::list] iterator is
    the address of a node: it stays valid while other nodes are moved,
    inserted or erased.  The embedding keeps that aliasing: a node of the
    list carries its address, and the map stores addresses.

    Every member function takes the lock for its whole body, so a call is
    one atomic step on the pair (list, map); the development below is
    about these steps and their sequential composition.

    An operation of the C++ library whose precondition fails (splicing or
    dereferencing an iterator that points to no node, [pop_back] or
    [--end()] on an empty list) has undefined behaviour; the embedding
    returns [None] there, and [Some] of the result otherwise. *)

From stdpp Require Import gmap strings list fin_maps sorting pretty.

(** An iterator of [std::list<std::pair<Key, Value>>]: the address of a node. *)
Abbreviation iterator := nat (only parsing).

Section LRUCache.
Context `{Countable K} {V : Type}.

(** A list node: its address and the pair it stores
    ([it->first] is the key, [it->second] the value). *)
Local Abbreviation node := (iterator * (K * V))%type.

Definition node_it (n : node) : iterator := n.1.
Definition node_key (n : node) : K := n.2.1.
Definition node_value (n : node) : V := n.2.2.

(** ** The operations of [std::list] the class uses *)

(** The allocator hands out an address that no live node has. *)
Definition fresh_node (l : list node) : iterator := S (max_list (l.*1)).

(** Unlink the node at [it]: the node and the list without it. *)
Fixpoint extract (it : iterator) (l : list node) : option (node * list node) :=
  match l with
  | [] => None
  | n :: l' =>
      if decide (n.1 = it) then Some (n, l')
      else '(m, r) ← extract it l'; Some (m, n :: r)
  end.

(** [*it] *)
Definition deref (it : iterator) (l : list node) : option node :=
  fst <$> extract it l.

(** [l.splice(l.begin(), l, it)]: relink the node at [it] before the
    first node.  The node keeps its address. *)
Definition splice_begin (it : iterator) (l : list node) : option (list node) :=
  '(n, r) ← extract it l; Some (n :: r).

(** [it->second = value] on the stored pair. *)
Fixpoint assign_second (it : iterator) (value : V) (l : list node)
  : option (list node) :=
  match l with
  | [] => None
  | n :: l' =>
      if decide (n.1 = it) then Some ((n.1, (n.2.1, value)) :: l')
      else (n ::.) <$> assign_second it value l'
  end.

(** [l.emplace_front(key, value)]; [l.begin()] is then the new node. *)
Definition emplace_front (key : K) (value : V) (l : list node) : list node :=
  (fresh_node l, (key, value)) :: l.

(** [l.begin()] right after [emplace_front]. *)
Definition begin_ (l : list node) : option iterator := fst <$> head l.

(** [l.erase(it)] *)
Definition erase (it : iterator) (l : list node) : option (list node) :=
  snd <$> extract it l.

(** [auto lru = l.end(); --lru;] the last node; undefined on an empty list. *)
Definition end_prev (l : list node) : option node := last l.

(** [l.pop_back()]; undefined on an empty list. *)
Definition pop_back (l : list node) : option (list node) :=
  match l with
  | [] => None
  | _ :: _ => Some (removelast l)
  end.

(** ** The class *)

Record LRUCache : Type := mkLRUCache {
  capacity_ : nat;                      (* size_t, only ever compared *)
  cache_items_ : list node;             (* front = most recently used *)
  cacheMap : gmap K iterator
}.

Definition with_items (c : LRUCache) (l : list node) : LRUCache :=
  {| capacity_ := capacity_ c; cache_items_ := l; cacheMap := cacheMap c |}.

(** [explicit LRUCache(size_t capacity) : capacity_(capacity) {}] *)
Definition LRUCache_new (capacity : nat) : LRUCache :=
  {| capacity_ := capacity; cache_items_ := []; cacheMap := ∅ |}.

(** [bool get(const Key& key, Value& value)]: the flag returned, the
    content of [value] after the call, and the cache after the call. *)
Definition get (c : LRUCache) (key : K) (value : V)
  : option (bool * V * LRUCache) :=
  match cacheMap c !! key with
  | None => Some (false, value, c)
  | Some it =>
      l ← splice_begin it (cache_items_ c);
      n ← deref it l;
      Some (true, node_value n, with_items c l)
  end.

(** The second half of [put]: [if (cacheMap.size() > capacity_) { ... }]. *)
Definition evict_if_over (c : LRUCache) : option LRUCache :=
  if decide (capacity_ c < base.size (cacheMap c)) then
    lru ← end_prev (cache_items_ c);
    l ← pop_back (cache_items_ c);
    Some {| capacity_ := capacity_ c;
            cache_items_ := l;
            cacheMap := delete (node_key lru) (cacheMap c) |}
  else Some c.

(** The first half of the miss path of [put]:
    [cache_items_.emplace_front(key, value); cacheMap[key] = cache_items_.begin();] *)
Definition insert_front (c : LRUCache) (key : K) (value : V) : option LRUCache :=
  let l := emplace_front key value (cache_items_ c) in
  it ← begin_ l;
  Some {| capacity_ := capacity_ c;
          cache_items_ := l;
          cacheMap := <[key := it]> (cacheMap c) |}.

(** [void put(const Key& key, const Value& value)] *)
Definition put (c : LRUCache) (key : K) (value : V) : option LRUCache :=
  match cacheMap c !! key with
  | Some it =>
      l ← assign_second it value (cache_items_ c);
      l' ← splice_begin it l;
      Some (with_items c l')
  | None =>
      c' ← insert_front c key value;
      evict_if_over c'
  end.

(** [void remove(const Key& key)] *)
Definition remove (c : LRUCache) (key : K) : option LRUCache :=
  match cacheMap c !! key with
  | Some it =>
      l ← erase it (cache_items_ c);
      Some {| capacity_ := capacity_ c;
              cache_items_ := l;
              cacheMap := delete key (cacheMap c) |}
  | None => Some c
  end.

(** [size_t size() const] *)
Definition size (c : LRUCache) : nat := base.size (cacheMap c).

(** ** Sequences of calls *)

Inductive call : Type :=
  | Get (key : K) (value : V)
  | Put (key : K) (value : V)
  | Remove (key : K)
  | Size.

(** The cache after one call (results of [get] and [size] dropped). *)
Definition exec (c : LRUCache) (o : call) : option LRUCache :=
  match o with
  | Get key value => snd <$> get c key value
  | Put key value => put c key value
  | Remove key => remove c key
  | Size => Some c
  end.

Fixpoint run (c : LRUCache) (calls : list call) : option LRUCache :=
  match calls with
  | [] => Some c
  | o :: calls' => c' ← exec c o; run c' calls'
  end.

(** The value of the latest [put] of [key] in a history of calls. *)
Fixpoint last_put (key : K) (calls : list call) : option V :=
  match calls with
  | [] => None
  | o :: calls' =>
      match last_put key calls' with
      | Some v => Some v
      | None =>
          match o with
          | Put key' value => if decide (key' = key) then Some value else None
          | _ => None
          end
      end
  end.

(** The recency list as the caller sees it: the stored pairs, most
    recently used first. *)
Definition entries (c : LRUCache) : list (K * V) := (cache_items_ c).*2.

Definition keys (c : LRUCache) : list K := (entries c).*1.

(** ** The representation invariant *)

(** What the map should hold for a list: each key with the address of its node. *)
Definition locators (l : list node) : list (K * iterator) :=
  (λ n, (n.2.1, n.1)) <$> l.

Record wf (c : LRUCache) : Prop := {
  wf_its : NoDup (cache_items_ c).*1;
  wf_keys : NoDup (keys c);
  wf_map : ∀ k it,
    cacheMap c !! k = Some it ↔ (k, it) ∈ locators (cache_items_ c)
}.

(** ** What a history of calls says about the cache *)

(** Every stored value is the one the latest [put] of its key gave. *)
Definition stores_last_put (calls : list call) (c : LRUCache) : Prop :=
  ∀ it k v, (it, (k, v)) ∈ cache_items_ c → last_put k calls = Some v.

(** A call accesses a key when it gets or puts it. *)
Definition touches (k : K) (o : call) : bool :=
  match o with
  | Get k' _ | Put k' _ => bool_decide (k' = k)
  | Remove _ | Size => false
  end.

(** The time of the latest access to [k]: the position, counted from 1,
    of the last call of the history that accesses [k]; 0 if none does. *)
Fixpoint last_access (k : K) (calls : list call) : nat :=
  match calls with
  | [] => 0
  | o :: calls' =>
      match last_access k calls' with
      | 0 => if touches k o then 1 else 0
      | S t => S (S t)
      end
  end.

Definition more_recent (calls : list call) (k1 k2 : K) : Prop :=
  last_access k2 calls < last_access k1 calls.

(** The list is in the order of the latest accesses, latest first. *)
Definition recency_ordered (calls : list call) (c : LRUCache) : Prop :=
  StronglySorted (more_recent calls) (keys c).

(** What holds of the cache [c] that the history [calls] leads to from a
    new cache of capacity [cap]. *)
Record inv (cap : nat) (calls : list call) (c : LRUCache) : Prop := {
  inv_cap : capacity_ c = cap;
  inv_wf : wf c;
  inv_length : length (cache_items_ c) ≤ cap;
  inv_hist : stores_last_put calls c;
  inv_recency : recency_ordered calls c
}.

(** ** A reference model: the cache as a plain list of pairs

    What a caller can observe of the cache, without nodes, addresses or
    index: the pairs in the order of [cache_items_], most recently used
    first.  The functions below say how each call should change that
    list; the class is proved to do so. *)

(** The value paired with the first occurrence of [k]. *)
Fixpoint assoc (k : K) (es : list (K * V)) : option V :=
  match es with
  | [] => None
  | (k', v) :: es' => if decide (k' = k) then Some v else assoc k es'
  end.

(** The pairs whose key is not [k]. *)
Definition without (k : K) (es : list (K * V)) : list (K * V) :=
  filter (λ e, e.1 ≠ k) es.

Definition model_get (es : list (K * V)) (k : K) : list (K * V) :=
  match assoc k es with
  | Some v => (k, v) :: without k es
  | None => es
  end.

Definition model_put (cap : nat) (es : list (K * V)) (k : K) (v : V)
  : list (K * V) :=
  take cap ((k, v) :: without k es).

Definition model_remove (es : list (K * V)) (k : K) : list (K * V) :=
  without k es.

Definition model_exec (cap : nat) (es : list (K * V)) (o : call)
  : list (K * V) :=
  match o with
  | Get k _ => model_get es k
  | Put k v => model_put cap es k v
  | Remove k => model_remove es k
  | Size => es
  end.

Definition model_run (cap : nat) (es : list (K * V)) (calls : list call)
  : list (K * V) :=
  foldl (model_exec cap) es calls.

(** What [get] hands back to its caller: the flag and the content of
    the out-parameter. *)
Definition get_result (c : LRUCache) (k : K) (value : V) : option (bool * V) :=
  fst <$> get c k value.

(** ** Lemmas on the list operations *)

Lemma extract_app (it : iterator) (kv : K * V) (l1 l2 : list node) :
  it ∉ l1.*1 →
  extract it (l1 ++ (it, kv) :: l2) = Some ((it, kv), l1 ++ l2).
Proof.
  induction l1 as [|[j p] l1 IH]; simpl; intros Hnotin.
  - by rewrite decide_True.
  - apply not_elem_of_cons in Hnotin as [Hne Hnotin].
    rewrite decide_False by done. by rewrite IH.
Qed.

Lemma extract_None (it : iterator) (l : list node) :
  extract it l = None ↔ it ∉ l.*1.
Proof.
  induction l as [|m l IH]; simpl.
  - split; [intros _; apply not_elem_of_nil|done].
  - rewrite not_elem_of_cons. case_decide as Hm.
    + split; [done|]. by intros [Hne _].
    + destruct (extract it l) as [[n' r']|] eqn:Hl; simpl.
      * split; [done|]. intros [_ Hnotin]. by apply IH in Hnotin.
      * split; [|done]. intros _. split; [done|]. by apply IH.
Qed.

Lemma assign_second_app (it : iterator) (k : K) (v0 v : V) (l1 l2 : list node) :
  it ∉ l1.*1 →
  assign_second it v (l1 ++ (it, (k, v0)) :: l2)
  = Some (l1 ++ (it, (k, v)) :: l2).
Proof.
  induction l1 as [|[j p] l1 IH]; simpl; intros Hnotin.
  - by rewrite decide_True.
  - apply not_elem_of_cons in Hnotin as [Hne Hnotin].
    rewrite decide_False by done. by rewrite IH.
Qed.

Lemma fresh_node_fresh (l : list node) : fresh_node l ∉ l.*1.
Proof.
  intros Hin. apply max_list_elem_of_le in Hin. unfold fresh_node in Hin. lia.
Qed.

Lemma pop_back_snoc (l : list node) (n : node) : pop_back (l ++ [n]) = Some l.
Proof.
  unfold pop_back. rewrite removelast_last. by destruct l.
Qed.

Lemma end_prev_snoc (l : list node) (n : node) : end_prev (l ++ [n]) = Some n.
Proof. apply last_snoc. Qed.

(** A node is found by its address where there is one node per address. *)
Lemma NoDup_its_split (l : list node) (it : iterator) (kv : K * V) :
  NoDup (l.*1) → (it, kv) ∈ l →
  ∃ l1 l2, l = l1 ++ (it, kv) :: l2 ∧ (it ∉ l1.*1) ∧ (it ∉ l2.*1).
Proof.
  intros Hnd Hin. apply list_elem_of_split in Hin as (l1 & l2 & ->).
  exists l1, l2. split; [done|].
  rewrite fmap_app, fmap_cons in Hnd. simpl in Hnd.
  apply NoDup_app in Hnd as (_ & Hdisj & Hnd2).
  apply NoDup_cons in Hnd2 as [Hn2 _]. split; [|done].
  intros Hin1. apply (Hdisj _ Hin1). by left.
Qed.


Lemma locators_elem_of (l : list node) (k : K) (it : iterator) :
  (k, it) ∈ locators l ↔ ∃ v, (it, (k, v)) ∈ l.
Proof.
  unfold locators. rewrite list_elem_of_fmap. split.
  - intros ([j [k' v]] & Heq & Hin). simplify_eq/=. by exists v.
  - intros (v & Hin). by exists (it, (k, v)).
Qed.

Lemma locators_fst (l : list node) : (locators l).*1 = l.*2.*1.
Proof. unfold locators. by rewrite <- !list_fmap_compose. Qed.

Lemma locators_middle (l1 l2 : list node) (it : iterator) (k : K) (v : V) :
  locators (l1 ++ (it, (k, v)) :: l2) ≡ₚ (k, it) :: locators (l1 ++ l2).
Proof.
  unfold locators. rewrite !fmap_app, fmap_cons. simpl.
  by rewrite Permutation_middle.
Qed.

Lemma keys_elem_of (c : LRUCache) (k : K) :
  wf c → k ∈ keys c ↔ is_Some (cacheMap c !! k).
Proof.
  intros Hwf. unfold keys, entries. rewrite <- locators_fst.
  rewrite list_elem_of_fmap. split.
  - intros ([k' it] & -> & Hin). exists it. by apply Hwf.
  - intros [it Hit]. exists (k, it). split; [done|]. by apply Hwf.
Qed.

(** The node a key is mapped to, in context. *)
Lemma wf_lookup (c : LRUCache) (k : K) (it : iterator) :
  wf c → cacheMap c !! k = Some it →
  ∃ v l1 l2,
    cache_items_ c = l1 ++ (it, (k, v)) :: l2 ∧
    (it ∉ l1.*1) ∧ (it ∉ l2.*1) ∧ (k ∉ (l1 ++ l2).*2.*1).
Proof.
  intros Hwf Hk. apply Hwf, locators_elem_of in Hk as [v Hin].
  destruct (NoDup_its_split _ _ _ (wf_its _ Hwf) Hin)
    as (l1 & l2 & Hl & Hn1 & Hn2).
  exists v, l1, l2. repeat split; try done.
  pose proof (wf_keys _ Hwf) as Hnd. unfold keys, entries in Hnd.
  rewrite Hl, !fmap_app, !fmap_cons in Hnd. simpl in Hnd.
  rewrite <- Permutation_middle in Hnd. apply NoDup_cons in Hnd as [Hnk _].
  by rewrite !fmap_app.
Qed.

Lemma wf_new (capacity : nat) : wf (LRUCache_new capacity).
Proof.
  split; simpl; try apply NoDup_nil_2.
  intros k it. rewrite lookup_empty. split; [done|]. by intros ?%elem_of_nil.
Qed.

(** The map has one binding per node. *)
Lemma wf_size_length (c : LRUCache) :
  wf c → base.size (cacheMap c) = length (cache_items_ c).
Proof.
  intros Hwf.
  assert (cacheMap c = list_to_map (locators (cache_items_ c))) as ->.
  { apply map_eq. intros k. apply option_eq. intros it.
    rewrite <- elem_of_list_to_map.
    - apply Hwf.
    - rewrite locators_fst. apply Hwf. }
  rewrite map_size_list_to_map.
  - unfold locators. by rewrite length_fmap.
  - rewrite locators_fst. apply Hwf.
Qed.

(** Relocating a node to the front, possibly with a new value, keeps
    the invariant: addresses and keys are those of before. *)
Lemma wf_relocate (c : LRUCache) (l1 l2 : list node)
    (it : iterator) (k : K) (v0 v : V) :
  wf c → cache_items_ c = l1 ++ (it, (k, v0)) :: l2 →
  wf (with_items c ((it, (k, v)) :: l1 ++ l2)).
Proof.
  intros [Hits Hkeys Hmap] Hl. unfold keys, entries in *.
  rewrite Hl in *. split; unfold keys, entries; simpl.
  - rewrite fmap_app, fmap_cons in Hits. simpl in Hits.
    rewrite <- Permutation_middle in Hits. by rewrite fmap_app.
  - rewrite !fmap_app, !fmap_cons in Hkeys. simpl in Hkeys.
    rewrite <- Permutation_middle in Hkeys. by rewrite !fmap_app.
  - intros k' it'. rewrite Hmap, locators_middle.
    change (locators ((it, (k, v)) :: l1 ++ l2))
      with ((k, it) :: locators (l1 ++ l2)). done.
Qed.

Lemma locators_keys_elem_of (l : list node) (k : K) (it : iterator) :
  (k, it) ∈ locators l → k ∈ l.*2.*1.
Proof.
  intros Hin. rewrite <- locators_fst. apply list_elem_of_fmap.
  by exists (k, it).
Qed.

(** A new node for a key the map does not have. *)
Lemma wf_insert_front (c : LRUCache) (k : K) (v : V) :
  wf c → cacheMap c !! k = None →
  wf {| capacity_ := capacity_ c;
        cache_items_ := (fresh_node (cache_items_ c), (k, v)) :: cache_items_ c;
        cacheMap := <[k := fresh_node (cache_items_ c)]> (cacheMap c) |}.
Proof.
  intros Hwf Hk.
  assert (k ∉ (cache_items_ c).*2.*1) as Hnk.
  { intros Hin. apply (keys_elem_of c k Hwf) in Hin as [it Hit]. congruence. }
  destruct Hwf as [Hits Hkeys Hmap]. split; unfold keys, entries in *; simpl.
  - apply NoDup_cons. split; [apply fresh_node_fresh|done].
  - apply NoDup_cons. by split.
  - intros k' it'. rewrite elem_of_cons. destruct (decide (k' = k)) as [->|Hne].
    + rewrite lookup_insert_eq. split.
      * intros [= <-]. by left.
      * intros [[= ->]|Hin%locators_keys_elem_of]; [done|]. by destruct Hnk.
    + rewrite lookup_insert_ne by done. rewrite Hmap. split; [by right|].
      intros [[= -> _]|Hin]; [done|done].
Qed.

(** Unlinking a node and deleting its key. *)
Lemma wf_drop (c : LRUCache) (l1 l2 : list node)
    (it : iterator) (k : K) (v : V) :
  wf c → cache_items_ c = l1 ++ (it, (k, v)) :: l2 →
  wf {| capacity_ := capacity_ c;
        cache_items_ := l1 ++ l2;
        cacheMap := delete k (cacheMap c) |}.
Proof.
  intros [Hits Hkeys Hmap] Hl. unfold keys, entries in *. rewrite Hl in *.
  rewrite fmap_app, fmap_cons in Hits. simpl in Hits.
  rewrite <- Permutation_middle in Hits. apply NoDup_cons in Hits as [_ Hits].
  rewrite !fmap_app, !fmap_cons in Hkeys. simpl in Hkeys.
  rewrite <- Permutation_middle in Hkeys.
  apply NoDup_cons in Hkeys as [Hnk Hkeys].
  split; unfold keys, entries; simpl.
  - by rewrite fmap_app.
  - by rewrite !fmap_app.
  - intros k' it'. destruct (decide (k' = k)) as [->|Hne].
    + rewrite lookup_delete_eq. split; [done|].
      intros Hin%locators_keys_elem_of. rewrite !fmap_app in Hin. done.
    + rewrite lookup_delete_ne by done. rewrite Hmap, locators_middle.
      rewrite elem_of_cons. split; [|by right].
      intros [[= -> _]|Hin]; [done|done].
Qed.

(** ** What each call does on a well-formed cache *)

Lemma get_miss (c : LRUCache) (k : K) (value : V) :
  cacheMap c !! k = None → get c k value = Some (false, value, c).
Proof. intros Hk. unfold get. by rewrite Hk. Qed.

Lemma get_hit (c : LRUCache) (k : K) (it : iterator) (value : V) :
  wf c → cacheMap c !! k = Some it →
  ∃ v l1 l2,
    cache_items_ c = l1 ++ (it, (k, v)) :: l2 ∧ (k ∉ (l1 ++ l2).*2.*1) ∧
    get c k value = Some (true, v, with_items c ((it, (k, v)) :: l1 ++ l2)).
Proof.
  intros Hwf Hk.
  destruct (wf_lookup c k it Hwf Hk) as (v & l1 & l2 & Hl & Hn1 & _ & Hnk).
  exists v, l1, l2. do 2 (split; [done|]).
  unfold get, splice_begin, deref. rewrite Hk, Hl, extract_app by done.
  simpl. by rewrite decide_True.
Qed.

Lemma put_hit (c : LRUCache) (k : K) (it : iterator) (value : V) :
  wf c → cacheMap c !! k = Some it →
  ∃ v l1 l2,
    cache_items_ c = l1 ++ (it, (k, v)) :: l2 ∧ (k ∉ (l1 ++ l2).*2.*1) ∧
    put c k value = Some (with_items c ((it, (k, value)) :: l1 ++ l2)).
Proof.
  intros Hwf Hk.
  destruct (wf_lookup c k it Hwf Hk) as (v & l1 & l2 & Hl & Hn1 & _ & Hnk).
  exists v, l1, l2. do 2 (split; [done|]).
  unfold put, splice_begin. rewrite Hk, Hl, assign_second_app by done.
  simpl. by rewrite extract_app.
Qed.

Lemma insert_front_eq (c : LRUCache) (k : K) (v : V) :
  insert_front c k v =
  Some {| capacity_ := capacity_ c;
          cache_items_ := (fresh_node (cache_items_ c), (k, v)) :: cache_items_ c;
          cacheMap := <[k := fresh_node (cache_items_ c)]> (cacheMap c) |}.
Proof. done. Qed.

Lemma evict_if_over_fits (c : LRUCache) :
  base.size (cacheMap c) ≤ capacity_ c → evict_if_over c = Some c.
Proof. intros Hle. unfold evict_if_over. rewrite decide_False; [done|lia]. Qed.

Lemma evict_if_over_evicts (c : LRUCache) (l : list node) (n : node) :
  capacity_ c < base.size (cacheMap c) → cache_items_ c = l ++ [n] →
  evict_if_over c =
  Some {| capacity_ := capacity_ c;
          cache_items_ := l;
          cacheMap := delete (node_key n) (cacheMap c) |}.
Proof.
  intros Hlt Hl. unfold evict_if_over. rewrite decide_True by done.
  by rewrite Hl, end_prev_snoc, pop_back_snoc.
Qed.

Lemma remove_miss (c : LRUCache) (k : K) :
  cacheMap c !! k = None → remove c k = Some c.
Proof. intros Hk. unfold remove. by rewrite Hk. Qed.

Lemma remove_hit (c : LRUCache) (k : K) (it : iterator) :
  wf c → cacheMap c !! k = Some it →
  ∃ v l1 l2,
    cache_items_ c = l1 ++ (it, (k, v)) :: l2 ∧ (k ∉ (l1 ++ l2).*2.*1) ∧
    remove c k = Some {| capacity_ := capacity_ c;
                         cache_items_ := l1 ++ l2;
                         cacheMap := delete k (cacheMap c) |}.
Proof.
  intros Hwf Hk.
  destruct (wf_lookup c k it Hwf Hk) as (v & l1 & l2 & Hl & Hn1 & _ & Hnk).
  exists v, l1, l2. do 2 (split; [done|]).
  unfold remove, erase. by rewrite Hk, Hl, extract_app.
Qed.

(** ** Histories of calls *)

Lemma run_snoc (c : LRUCache) (calls : list call) (o : call) :
  run c (calls ++ [o]) = c' ← run c calls; exec c' o.
Proof.
  revert c. induction calls as [|o' calls IH]; intros c; simpl.
  - by destruct (exec c o).
  - destruct (exec c o') as [c'|]; simpl; [apply IH|done].
Qed.

Lemma last_put_snoc (k : K) (calls : list call) (o : call) :
  last_put k (calls ++ [o]) =
  match o with
  | Put k' v => if decide (k' = k) then Some v else last_put k calls
  | _ => last_put k calls
  end.
Proof.
  induction calls as [|o' calls IH]; simpl.
  - destruct o; simpl; try case_decide; done.
  - rewrite IH. destruct o; simpl; try case_decide; done.
Qed.



Lemma stores_last_put_incl (calls calls' : list call) (c c' : LRUCache) :
  stores_last_put calls c →
  (∀ n, n ∈ cache_items_ c' → n ∈ cache_items_ c) →
  (∀ k, last_put k calls' = last_put k calls) →
  stores_last_put calls' c'.
Proof.
  intros Hst Hincl Heq it k v Hin. rewrite Heq. eapply Hst, Hincl, Hin.
Qed.

(** After [put(k, v)] found or made the node of [k] and left the other
    nodes as they were. *)
Lemma stores_last_put_put (calls : list call) (c c' : LRUCache)
    (l : list node) (it : iterator) (k : K) (v : V) :
  stores_last_put calls c →
  (∀ n, n ∈ l → n ∈ cache_items_ c) → k ∉ l.*2.*1 →
  (∀ n, n ∈ cache_items_ c' → n ∈ (it, (k, v)) :: l) →
  stores_last_put (calls ++ [Put k v]) c'.
Proof.
  intros Hst Hincl Hnk Hl' it' k' v' Hin.
  rewrite last_put_snoc.
  apply Hl', elem_of_cons in Hin as [[= -> -> ->]|Hin].
  - by rewrite decide_True.
  - rewrite decide_False.
    + eapply Hst, Hincl, Hin.
    + intros <-. apply Hnk. apply list_elem_of_fmap. exists (k, v').
      split; [done|]. apply list_elem_of_fmap. by exists (it', (k, v')).
Qed.

(** ** The order of the list and the order of accesses *)

Lemma last_access_snoc (k : K) (calls : list call) (o : call) :
  last_access k (calls ++ [o]) =
  if touches k o then S (length calls) else last_access k calls.
Proof.
  induction calls as [|o' calls IH]; simpl.
  - by destruct (touches k o).
  - rewrite IH. destruct (touches k o); [done|].
    by destruct (last_access k calls).
Qed.

Lemma last_access_le (k : K) (calls : list call) :
  last_access k calls ≤ length calls.
Proof.
  induction calls as [|o calls IH]; simpl; [done|].
  destruct (last_access k calls); [destruct (touches k o)|]; lia.
Qed.

Lemma StronglySorted_middle {A} (R : relation A) (l1 l2 : list A) (x : A) :
  StronglySorted R (l1 ++ x :: l2) → StronglySorted R (l1 ++ l2).
Proof.
  rewrite !StronglySorted_app, StronglySorted_cons.
  intros (Hcross & Hl1 & _ & Hl2). repeat split; [|done|done].
  intros x1 x2 Hx1 Hx2. apply Hcross; [done|]. by right.
Qed.

(** A call that accesses none of the listed keys leaves their order. *)
Lemma recency_untouched (calls : list call) (o : call) (ks : list K) :
  StronglySorted (more_recent calls) ks →
  (∀ k, k ∈ ks → touches k o = false) →
  StronglySorted (more_recent (calls ++ [o])) ks.
Proof.
  induction 1 as [|k ks Hks IH Hk]; intros Hun; [constructor|].
  constructor.
  - apply IH. intros k' Hk'. apply Hun. by right.
  - apply Forall_forall. intros k' Hk'. unfold more_recent.
    rewrite !last_access_snoc, !Hun by set_solver.
    by eapply Forall_forall in Hk.
Qed.

(** The key a call accesses is then more recent than all the others. *)
Lemma recency_front (calls : list call) (o : call) (k : K) (ks : list K) :
  StronglySorted (more_recent calls) ks →
  touches k o = true → (∀ k', k' ∈ ks → touches k' o = false) →
  StronglySorted (more_recent (calls ++ [o])) (k :: ks).
Proof.
  intros Hks Hk Hun. constructor; [by apply recency_untouched|].
  apply Forall_forall. intros k' Hk'. unfold more_recent.
  rewrite !last_access_snoc, Hk, Hun by done.
  pose proof (last_access_le k' calls). lia.
Qed.

Lemma touches_get_ne (k k' : K) (value : V) :
  k ≠ k' → touches k' (Get k value) = false.
Proof. intros Hne. simpl. by rewrite bool_decide_eq_false. Qed.

Lemma touches_put_ne (k k' : K) (v : V) :
  k ≠ k' → touches k' (Put k v) = false.
Proof. intros Hne. simpl. by rewrite bool_decide_eq_false. Qed.

Lemma touches_get_eq (k : K) (value : V) : touches k (Get k value) = true.
Proof. simpl. by rewrite bool_decide_eq_true. Qed.

Lemma touches_put_eq (k : K) (v : V) : touches k (Put k v) = true.
Proof. simpl. by rewrite bool_decide_eq_true. Qed.

Lemma keys_middle (l1 l2 : list node) (it : iterator) (k : K) (v : V) :
  (l1 ++ (it, (k, v)) :: l2).*2.*1 = l1.*2.*1 ++ k :: l2.*2.*1.
Proof. by rewrite !fmap_app, !fmap_cons. Qed.

(** ** The miss path of [put] *)

Lemma put_miss_fits (c : LRUCache) (k : K) (v : V) :
  wf c → cacheMap c !! k = None → length (cache_items_ c) < capacity_ c →
  put c k v =
  Some {| capacity_ := capacity_ c;
          cache_items_ := (fresh_node (cache_items_ c), (k, v)) :: cache_items_ c;
          cacheMap := <[k := fresh_node (cache_items_ c)]> (cacheMap c) |}.
Proof.
  intros Hwf Hk Hlt. unfold put. rewrite Hk, insert_front_eq. simpl.
  apply evict_if_over_fits. simpl.
  rewrite map_size_insert_None, wf_size_length by done. lia.
Qed.

Lemma put_miss_evicts (c : LRUCache) (k : K) (v : V)
    (l : list node) (lru : node) :
  wf c → cacheMap c !! k = None → capacity_ c ≤ length (cache_items_ c) →
  (fresh_node (cache_items_ c), (k, v)) :: cache_items_ c = l ++ [lru] →
  put c k v =
  Some {| capacity_ := capacity_ c;
          cache_items_ := l;
          cacheMap := delete (node_key lru)
                        (<[k := fresh_node (cache_items_ c)]> (cacheMap c)) |}.
Proof.
  intros Hwf Hk Hle Hl. unfold put. rewrite Hk, insert_front_eq. simpl.
  erewrite evict_if_over_evicts; [done| |done]. simpl.
  rewrite map_size_insert_None, wf_size_length by done. lia.
Qed.

(** ** Each call keeps the invariant, and is defined *)

Lemma untouched_other (o : call) (k : K) (ks : list K) :
  (∀ k', k ≠ k' → touches k' o = false) → k ∉ ks →
  ∀ k', k' ∈ ks → touches k' o = false.
Proof. intros Hne Hnk k' Hk'. apply Hne. by intros ->. Qed.

Lemma untouched_remove (k : K) (ks : list K) :
  ∀ k', k' ∈ ks → touches k' (Remove k : call) = false.
Proof. done. Qed.

(** A new key in front of the list is the most recent one. *)
Lemma recency_put_miss (calls : list call) (c : LRUCache) (k : K) (v : V) :
  recency_ordered calls c → k ∉ (cache_items_ c).*2.*1 →
  StronglySorted (more_recent (calls ++ [Put k v]))
    (k :: (cache_items_ c).*2.*1).
Proof.
  intros Hrec Hnk. apply recency_front; [done|apply touches_put_eq|].
  eapply untouched_other; [|done]. intros k'. apply touches_put_ne.
Qed.

Lemma inv_get (cap : nat) (calls : list call) (c : LRUCache) (k : K) (value : V) :
  inv cap calls c →
  ∃ r, get c k value = Some r ∧ inv cap (calls ++ [Get k value]) r.2.
Proof.
  intros [Hcap Hwf Hlen Hhist Hrec].
  destruct (cacheMap c !! k) as [it|] eqn:Hk.
  - destruct (get_hit c k it value Hwf Hk) as (v & l1 & l2 & Hl & Hnk & ->).
    eexists. split; [done|]. simpl. split; simpl.
    + done.
    + by eapply wf_relocate.
    + rewrite Hl in Hlen. rewrite length_app in *. simpl in *. lia.
    + eapply stores_last_put_incl; [done| |].
      * simpl. intros n Hn. rewrite Hl, <- Permutation_middle.
        done || by right.
      * intros k'. by rewrite last_put_snoc.
    + unfold recency_ordered, keys, entries in *. simpl.
      rewrite Hl, keys_middle in Hrec. rewrite !fmap_app in *.
      apply recency_front.
      * by eapply StronglySorted_middle.
      * apply touches_get_eq.
      * eapply untouched_other; [|done]. intros k'. apply touches_get_ne.
  - rewrite get_miss by done. eexists. split; [done|]. simpl.
    split; try done.
    + eapply stores_last_put_incl; [done|done|].
      intros k'. by rewrite last_put_snoc.
    + apply recency_untouched; [done|].
      eapply untouched_other; [intros k'; apply touches_get_ne|].
      intros Hin. apply (keys_elem_of c k Hwf) in Hin as [it Hit]. congruence.
Qed.

Lemma inv_put (cap : nat) (calls : list call) (c : LRUCache) (k : K) (v : V) :
  inv cap calls c →
  ∃ c', put c k v = Some c' ∧ inv cap (calls ++ [Put k v]) c'.
Proof.
  intros [Hcap Hwf Hlen Hhist Hrec].
  destruct (cacheMap c !! k) as [it|] eqn:Hk.
  - destruct (put_hit c k it v Hwf Hk) as (v0 & l1 & l2 & Hl & Hnk & ->).
    eexists. split; [done|]. split; simpl.
    + done.
    + by eapply wf_relocate.
    + rewrite Hl in Hlen. rewrite length_app in *. simpl in *. lia.
    + eapply (stores_last_put_put calls c _ (l1 ++ l2) it k v); try done.
      intros n Hn. rewrite Hl, <- Permutation_middle. by right.
    + unfold recency_ordered, keys, entries in *. simpl.
      rewrite Hl, keys_middle in Hrec. rewrite !fmap_app in *.
      apply recency_front.
      * by eapply StronglySorted_middle.
      * apply touches_put_eq.
      * eapply untouched_other; [|done]. intros k'. apply touches_put_ne.
  - assert (k ∉ (cache_items_ c).*2.*1) as Hnk.
    { intros Hin. apply (keys_elem_of c k Hwf) in Hin as [it Hit]. congruence. }
    pose proof (wf_insert_front c k v Hwf Hk) as Hwf1.
    pose proof (recency_put_miss calls c k v Hrec Hnk) as Hrec1.
    destruct (decide (length (cache_items_ c) < capacity_ c)) as [Hlt|Hge].
    + rewrite put_miss_fits by done. eexists. split; [done|]. split; simpl.
      * done.
      * done.
      * lia.
      * by eapply (stores_last_put_put calls c _ (cache_items_ c) _ k v).
      * done.
    + destruct (exists_last
        (l := (fresh_node (cache_items_ c), (k, v)) :: cache_items_ c))
        as (l & [it0 [k0 v0]] & Hl); [done|].
      erewrite put_miss_evicts; [|done|done|lia|done].
      eexists. split; [done|]. split; simpl.
      * done.
      * pose proof (wf_drop _ l [] it0 k0 v0 Hwf1 Hl) as Hwf2.
        by rewrite app_nil_r in Hwf2.
      * apply (f_equal length) in Hl. rewrite length_app in Hl.
        simpl in Hl. lia.
      * eapply (stores_last_put_put calls c _ (cache_items_ c) _ k v);
          try done.
        simpl. intros n Hn. rewrite Hl. set_solver.
      * unfold recency_ordered, keys, entries. simpl.
        change (k :: (cache_items_ c).*2.*1)
          with (((fresh_node (cache_items_ c), (k, v)) :: cache_items_ c).*2.*1)
          in Hrec1.
        rewrite Hl, keys_middle in Hrec1.
        by eapply StronglySorted_app_1_l.
Qed.

Lemma inv_remove (cap : nat) (calls : list call) (c : LRUCache) (k : K) :
  inv cap calls c →
  ∃ c', remove c k = Some c' ∧ inv cap (calls ++ [Remove k]) c'.
Proof.
  intros [Hcap Hwf Hlen Hhist Hrec].
  destruct (cacheMap c !! k) as [it|] eqn:Hk.
  - destruct (remove_hit c k it Hwf Hk) as (v & l1 & l2 & Hl & Hnk & ->).
    eexists. split; [done|]. split; simpl.
    + done.
    + by eapply wf_drop.
    + rewrite Hl in Hlen. rewrite length_app in *. simpl in *. lia.
    + eapply stores_last_put_incl; [done| |].
      * simpl. intros n Hn. rewrite Hl, <- Permutation_middle.
        done || by right.
      * intros k'. by rewrite last_put_snoc.
    + unfold recency_ordered, keys, entries in *. simpl.
      rewrite Hl, keys_middle in Hrec. rewrite !fmap_app in *.
      apply recency_untouched; [|done].
      by eapply StronglySorted_middle.
  - rewrite remove_miss by done. eexists. split; [done|].
    split; try done.
    + eapply stores_last_put_incl; [done|done|].
      intros k'. by rewrite last_put_snoc.
    + by apply recency_untouched.
Qed.

Lemma inv_exec (cap : nat) (calls : list call) (c : LRUCache) (o : call) :
  inv cap calls c → ∃ c', exec c o = Some c' ∧ inv cap (calls ++ [o]) c'.
Proof.
  intros Hinv. destruct o as [k value|k v|k|]; simpl.
  - destruct (inv_get cap calls c k value Hinv) as (r & -> & Hr).
    by exists r.2.
  - by apply inv_put.
  - by apply inv_remove.
  - exists c. split; [done|]. destruct Hinv as [Hcap Hwf Hlen Hhist Hrec].
    split; try done.
    + eapply stores_last_put_incl; [done|done|].
      intros k'. by rewrite last_put_snoc.
    + by apply recency_untouched.
Qed.

Lemma inv_new (cap : nat) : inv cap [] (LRUCache_new cap).
Proof.
  split; simpl; [done|apply wf_new|lia| |constructor].
  intros it k v Hin. by apply elem_of_nil in Hin.
Qed.

(** No sequence of calls on a new cache runs into undefined behaviour,
    and the invariant holds after it. *)
Lemma run_defined (cap : nat) (calls : list call) :
  ∃ c, run (LRUCache_new cap) calls = Some c ∧ inv cap calls c.
Proof.
  induction calls as [|o calls IH] using rev_ind.
  - exists (LRUCache_new cap). split; [done|apply inv_new].
  - destruct IH as (c & Hrun & Hinv).
    destruct (inv_exec cap calls c o Hinv) as (c' & Hexec & Hinv').
    exists c'. split; [|done]. by rewrite run_snoc, Hrun.
Qed.

Lemma run_inv (cap : nat) (calls : list call) (c : LRUCache) :
  run (LRUCache_new cap) calls = Some c → inv cap calls c.
Proof.
  intros Hrun. destruct (run_defined cap calls) as (c' & Hrun' & Hinv).
  congruence.
Qed.

(** With room for one entry at least, [put] leaves its key in the map. *)
Lemma put_keeps_key (cap : nat) (calls : list call) (c c' : LRUCache)
    (k : K) (v : V) :
  inv cap calls c → 1 ≤ cap → put c k v = Some c' →
  is_Some (cacheMap c' !! k).
Proof.
  intros [Hcap Hwf Hlen Hhist Hrec] Hpos Hput.
  destruct (cacheMap c !! k) as [it|] eqn:Hk.
  - destruct (put_hit c k it v Hwf Hk) as (v0 & l1 & l2 & Hl & Hnk & Hput').
    rewrite Hput' in Hput. injection Hput as <-. by exists it.
  - destruct (decide (length (cache_items_ c) < capacity_ c)) as [Hlt|Hge].
    + rewrite put_miss_fits in Hput by done. injection Hput as <-. simpl.
      rewrite lookup_insert_eq. by eexists.
    + destruct (exists_last
        (l := (fresh_node (cache_items_ c), (k, v)) :: cache_items_ c))
        as (l & lru & Hl); [done|].
      erewrite put_miss_evicts in Hput; [|done|done|lia|done].
      injection Hput as <-. simpl.
      assert (lru ∈ cache_items_ c) as Hin.
      { destruct (cache_items_ c) as [|x xs]; [simpl in *; lia|].
        apply last_Some_elem_of.
        rewrite <- (last_cons_cons (fresh_node (x :: xs), (k, v))), Hl.
        apply last_snoc. }
      assert (node_key lru ≠ k) as Hne.
      { intros <-. destruct lru as [it0 [k0 v0]].
        assert (k0 ∈ keys c) as Hk0.
        { apply list_elem_of_fmap. exists (k0, v0). split; [done|].
          apply list_elem_of_fmap. by exists (it0, (k0, v0)). }
        apply (keys_elem_of c k0 Hwf) in Hk0 as [it Hit].
        unfold node_key in Hk. simpl in Hk. congruence. }
      rewrite lookup_delete_ne, lookup_insert_eq by done. by eexists.
Qed.

(** ** Symbolic execution of single calls on explicit states *)

Ltac map_lookups :=
  repeat first
    [ rewrite lookup_empty
    | rewrite lookup_insert_eq
    | rewrite lookup_insert_ne by done
    | rewrite lookup_delete_eq
    | rewrite lookup_delete_ne by done ].

Ltac map_sizes :=
  repeat first
    [ rewrite map_size_empty
    | rewrite map_size_insert_None by (by map_lookups)
    | rewrite map_size_delete_Some by (by map_lookups) ].

Ltac decides :=
  repeat first
    [ rewrite decide_True by (done || lia)
    | rewrite decide_False by (done || lia) ].

Ltac list_cbn :=
  cbn [cacheMap cache_items_ capacity_ mbind option_bind fmap option_fmap
       option_map list_fmap head last removelast fst snd extract
       assign_second node_key node_value fresh_node max_list Nat.max].

Ltac call_step :=
  unfold get, put, remove, size, insert_front, evict_if_over, emplace_front,
    begin_, with_items, splice_begin, deref, erase, end_prev, pop_back;
  list_cbn; map_lookups; list_cbn; map_sizes; decides; list_cbn;
  decides; list_cbn.

(** Capacity 2: put A, put B, get A, put C. *)
Lemma run_refresh (A B C : K) (a b c value : V) :
  A ≠ B → A ≠ C → B ≠ C →
  run (LRUCache_new 2) [Put A a; Put B b; Get A value; Put C c] =
  Some {| capacity_ := 2;
          cache_items_ := [(3, (C, c)); (1, (A, a))];
          cacheMap := delete B (<[C := 3]> (<[B := 2]> (<[A := 1]> ∅))) |}.
Proof.
  intros HAB HAC HBC. unfold LRUCache_new. cbn [run exec].
  assert (put {| capacity_ := 2; cache_items_ := []; cacheMap := ∅ |} A a
          = Some {| capacity_ := 2; cache_items_ := [(1, (A, a))];
                    cacheMap := <[A := 1]> ∅ |}) as -> by (by call_step).
  cbn [mbind option_bind].
  assert (put {| capacity_ := 2; cache_items_ := [(1, (A, a))];
                 cacheMap := <[A := 1]> ∅ |} B b
          = Some {| capacity_ := 2;
                    cache_items_ := [(2, (B, b)); (1, (A, a))];
                    cacheMap := <[B := 2]> (<[A := 1]> ∅) |})
    as -> by (by call_step).
  cbn [mbind option_bind].
  assert (get {| capacity_ := 2;
                 cache_items_ := [(2, (B, b)); (1, (A, a))];
                 cacheMap := <[B := 2]> (<[A := 1]> ∅) |} A value
          = Some (true, a,
                  {| capacity_ := 2;
                     cache_items_ := [(1, (A, a)); (2, (B, b))];
                     cacheMap := <[B := 2]> (<[A := 1]> ∅) |}))
    as -> by (by call_step).
  cbn [mbind option_bind fmap option_fmap option_map snd].
  by call_step.
Qed.

(** Capacity 2: put A, put B, put A again. *)
Lemma run_update (A B : K) (a b a' : V) :
  A ≠ B →
  run (LRUCache_new 2) [Put A a; Put B b; Put A a'] =
  Some {| capacity_ := 2;
          cache_items_ := [(1, (A, a')); (2, (B, b))];
          cacheMap := <[B := 2]> (<[A := 1]> ∅) |}.
Proof.
  intros HAB. unfold LRUCache_new. cbn [run exec].
  assert (put {| capacity_ := 2; cache_items_ := []; cacheMap := ∅ |} A a
          = Some {| capacity_ := 2; cache_items_ := [(1, (A, a))];
                    cacheMap := <[A := 1]> ∅ |}) as -> by (by call_step).
  cbn [mbind option_bind].
  assert (put {| capacity_ := 2; cache_items_ := [(1, (A, a))];
                 cacheMap := <[A := 1]> ∅ |} B b
          = Some {| capacity_ := 2;
                    cache_items_ := [(2, (B, b)); (1, (A, a))];
                    cacheMap := <[B := 2]> (<[A := 1]> ∅) |})
    as -> by (by call_step).
  cbn [mbind option_bind].
  by call_step.
Qed.

(** With capacity 0 the only state is the empty cache. *)
Lemma inv_zero (calls : list call) (c : LRUCache) :
  inv 0 calls c → c = LRUCache_new 0.
Proof.
  intros [Hcap Hwf Hlen Hhist Hrec].
  pose proof (wf_size_length c Hwf) as Hsize.
  destruct c as [cap l m]. simpl in *. subst cap.
  destruct l; [|simpl in *; lia].
  apply map_size_empty_inv in Hsize as ->. done.
Qed.

(** * The properties of the specification *)

(** C1. Capacity invariant.  Whatever sequence of gets, puts and
    removes a cache of capacity [cap] has gone through (any capacity, so
    in particular any [cap >= 1]), the sequence runs to a state [c], a
    further [put] returns, and after it [size()] is at most [cap]. *)
Theorem put_within_capacity (cap : nat) (calls : list call) (k : K) (v : V) :
  ∃ c c',
    run (LRUCache_new cap) calls = Some c ∧
    put c k v = Some c' ∧
    size c' ≤ cap.
Proof.
  destruct (run_defined cap calls) as (c & Hrun & Hinv).
  destruct (inv_put cap calls c k v Hinv) as (c' & Hput & Hinv').
  exists c, c'. do 2 (split; [done|]).
  unfold size. rewrite wf_size_length by apply Hinv'. apply Hinv'.
Qed.

(** C3. A [get] of a key that the index does not hold returns [false],
    leaves the caller's [value] as it was, and leaves the cache (list,
    index, capacity) exactly as it was. *)
Theorem get_absent_no_effect (c : LRUCache) (k : K) (value : V) :
  cacheMap c !! k = None → get c k value = Some (false, value, c).
Proof. apply get_miss. Qed.

(** C4. A [get] of a key that is present (the index maps it to the node
    [it]) returns [true] with the value of that node, which is the value
    the latest [put] of the key stored; the cache after the call has the
    same index and the same nodes, with that node, unchanged, moved to the
    front and the others in their order. *)
Theorem get_present_moves_to_front (cap : nat) (calls : list call)
    (c : LRUCache) (k : K) (it : iterator) (value : V) :
  run (LRUCache_new cap) calls = Some c → cacheMap c !! k = Some it →
  ∃ v l1 l2,
    cache_items_ c = l1 ++ (it, (k, v)) :: l2 ∧
    (k ∉ (l1 ++ l2).*2.*1) ∧
    last_put k calls = Some v ∧
    get c k value =
    Some (true, v,
          {| capacity_ := capacity_ c;
             cache_items_ := (it, (k, v)) :: l1 ++ l2;
             cacheMap := cacheMap c |}).
Proof.
  intros Hrun Hk. pose proof (run_inv cap calls c Hrun) as Hinv.
  destruct (get_hit c k it value (inv_wf _ _ _ Hinv) Hk)
    as (v & l1 & l2 & Hl & Hnk & Hget).
  exists v, l1, l2. repeat split; try done.
  apply (inv_hist _ _ _ Hinv it). rewrite Hl. set_solver.
Qed.

(** C8. The state [c] that a sequence of calls leads to from a new cache
    of capacity [cap] (any capacity, so in particular [cap >= 1]) exists,
    and in it: the index maps a key to a node exactly when the list has
    that node with that key; a key is in the index exactly when the list
    has an entry for it; index and list have the same number of elements;
    [size()] is that number, between 0 and [cap]. *)
Theorem index_matches_list (cap : nat) (calls : list call) :
  ∃ c,
    run (LRUCache_new cap) calls = Some c ∧
    (∀ k it, cacheMap c !! k = Some it ↔ ∃ v, (it, (k, v)) ∈ cache_items_ c) ∧
    (∀ k, is_Some (cacheMap c !! k) ↔ k ∈ keys c) ∧
    base.size (cacheMap c) = length (cache_items_ c) ∧
    size c = length (cache_items_ c) ∧
    0 ≤ size c ≤ cap.
Proof.
  destruct (run_defined cap calls) as (c & Hrun & [Hcap Hwf Hlen Hhist Hrec]).
  pose proof (wf_size_length c Hwf) as Hsize.
  exists c. split; [done|]. repeat split.
  - intros Hk. by apply locators_elem_of, Hwf.
  - intros Hin. by apply Hwf, locators_elem_of.
  - by apply keys_elem_of.
  - by apply keys_elem_of.
  - done.
  - done.
  - lia.
  - unfold size. lia.
Qed.

(** C2. A [put] of a key that is not present, in the state [c] a
    history [calls] leads to.  The new node [(k, v)] goes to the front of
    the list and the index maps [k] to it.  If the count is then within
    the capacity ([size c < cap] before the call), nothing else changes.
    Otherwise the node [lru] at the back of the list at that moment is
    unlinked and its key deleted from the index, and nothing else: the
    list loses exactly that node, the key of [lru] is no longer in the
    list nor in the index, and every key that stays was accessed (by a
    get or a put) later in the history than the key of [lru].
    Example: capacity 2, put A, put B, get A, put C evicts B, and A and C
    are still found with their values. *)
Theorem put_absent_evicts_lru :
  (∀ (cap : nat) (calls : list call) (c : LRUCache) (k : K) (v : V),
     run (LRUCache_new cap) calls = Some c → cacheMap c !! k = None →
     (size c < cap →
      put c k v =
      Some {| capacity_ := cap;
              cache_items_ :=
                (fresh_node (cache_items_ c), (k, v)) :: cache_items_ c;
              cacheMap := <[k := fresh_node (cache_items_ c)]> (cacheMap c) |}) ∧
     (cap ≤ size c →
      ∃ l lru,
        (fresh_node (cache_items_ c), (k, v)) :: cache_items_ c = l ++ [lru] ∧
        put c k v =
        Some {| capacity_ := cap;
                cache_items_ := l;
                cacheMap := delete (node_key lru)
                  (<[k := fresh_node (cache_items_ c)]> (cacheMap c)) |} ∧
        length l = size c ∧
        (node_key lru ∉ l.*2.*1) ∧
        delete (node_key lru)
          (<[k := fresh_node (cache_items_ c)]> (cacheMap c))
          !! node_key lru = None ∧
        (∀ k', k' ∈ l.*2.*1 →
           last_access (node_key lru) (calls ++ [Put k v])
           < last_access k' (calls ++ [Put k v])))) ∧
  (∀ (A B C : K) (a b c value : V),
     A ≠ B → A ≠ C → B ≠ C →
     ∃ s,
       run (LRUCache_new 2) [Put A a; Put B b; Get A value; Put C c] = Some s ∧
       keys s = [C; A] ∧
       get s B value = Some (false, value, s) ∧
       (∃ s', get s A value = Some (true, a, s')) ∧
       (∃ s', get s C value = Some (true, c, s'))).
Proof.
  split.
  - intros cap calls c k v Hrun Hk.
    destruct (run_inv cap calls c Hrun) as [Hcap Hwf Hlen Hhist Hrec].
    pose proof (wf_size_length c Hwf) as Hsize. unfold size.
    assert (k ∉ (cache_items_ c).*2.*1) as Hnk.
    { intros Hin. apply (keys_elem_of c k Hwf) in Hin as [it Hit]. congruence. }
    split.
    + intros Hlt. rewrite put_miss_fits, Hcap; [done..|lia].
    + intros Hge.
      destruct (exists_last
        (l := (fresh_node (cache_items_ c), (k, v)) :: cache_items_ c))
        as (l & lru & Hl); [done|].
      exists l, lru. split; [done|].
      erewrite put_miss_evicts, Hcap; [|done|done|lia|done].
      split; [done|].
      pose proof (wf_keys _ (wf_insert_front c k v Hwf Hk)) as Hnd.
      pose proof (recency_put_miss calls c k v Hrec Hnk) as Hrec1.
      change (NoDup
        ((fresh_node (cache_items_ c), (k, v)) :: cache_items_ c).*2.*1) in Hnd.
      change (k :: (cache_items_ c).*2.*1)
        with (((fresh_node (cache_items_ c), (k, v)) :: cache_items_ c).*2.*1)
        in Hrec1.
      rewrite Hl in Hnd, Hrec1. destruct lru as [it0 [k0 v0]].
      rewrite keys_middle in Hnd, Hrec1. repeat split.
      * apply (f_equal length) in Hl. rewrite length_app in Hl.
        simpl in Hl. lia.
      * apply NoDup_app in Hnd as (_ & Hdisj & _).
        intros Hin. apply (Hdisj _ Hin). by left.
      * apply lookup_delete_eq.
      * intros k' Hk'.
        apply (StronglySorted_app_1_elem_of _ _ _ k' k0 Hrec1); [done|].
        by left.
  - intros A B C a b c value HAB HAC HBC. eexists.
    split; [by apply run_refresh|]. split; [done|].
    split; [by call_step|]. split; eexists; by call_step.
Qed.

(** C5. A [put] of a key that is present (the index maps it to the node
    [it]) stores the new value in that node and moves it to the front;
    the index is unchanged, no node is added or dropped, and the other
    nodes keep their content and order.
    Example: capacity 2, put A, put B, put A with a new value: the size
    is 2, A is found with the new value and B with its value. *)
Theorem put_present_updates_in_place :
  (∀ (cap : nat) (calls : list call) (c : LRUCache) (k : K) (it : iterator)
     (value : V),
     run (LRUCache_new cap) calls = Some c → cacheMap c !! k = Some it →
     ∃ v0 l1 l2,
       cache_items_ c = l1 ++ (it, (k, v0)) :: l2 ∧
       (k ∉ (l1 ++ l2).*2.*1) ∧
       put c k value =
       Some {| capacity_ := capacity_ c;
               cache_items_ := (it, (k, value)) :: l1 ++ l2;
               cacheMap := cacheMap c |}) ∧
  (∀ (A B : K) (a b a' value : V),
     A ≠ B →
     ∃ s,
       run (LRUCache_new 2) [Put A a; Put B b; Put A a'] = Some s ∧
       size s = 2 ∧
       (∃ s', get s A value = Some (true, a', s')) ∧
       (∃ s', get s B value = Some (true, b, s'))).
Proof.
  split.
  - intros cap calls c k it value Hrun Hk.
    pose proof (run_inv cap calls c Hrun) as Hinv.
    destruct (put_hit c k it value (inv_wf _ _ _ Hinv) Hk)
      as (v0 & l1 & l2 & Hl & Hnk & Hput).
    by exists v0, l1, l2.
  - intros A B a b a' value HAB. eexists.
    split; [by apply run_update|]. split; [by call_step|].
    split; eexists; by call_step.
Qed.

(** C6. [remove] of a present key unlinks its node and deletes the key
    from the index, the rest is as before, and the key is then in
    neither; [remove] of an absent key returns with the cache as it was;
    so a second [remove] of the same key changes nothing. *)
Theorem remove_spec :
  (∀ (cap : nat) (calls : list call) (c : LRUCache) (k : K) (it : iterator),
     run (LRUCache_new cap) calls = Some c → cacheMap c !! k = Some it →
     ∃ v l1 l2,
       cache_items_ c = l1 ++ (it, (k, v)) :: l2 ∧
       remove c k =
       Some {| capacity_ := capacity_ c;
               cache_items_ := l1 ++ l2;
               cacheMap := delete k (cacheMap c) |} ∧
       (k ∉ (l1 ++ l2).*2.*1) ∧
       delete k (cacheMap c) !! k = None) ∧
  (∀ (c : LRUCache) (k : K),
     cacheMap c !! k = None → remove c k = Some c) ∧
  (∀ (cap : nat) (calls : list call) (c : LRUCache) (k : K),
     run (LRUCache_new cap) calls = Some c →
     ∃ c', remove c k = Some c' ∧ remove c' k = Some c').
Proof.
  split; [|split].
  - intros cap calls c k it Hrun Hk.
    pose proof (run_inv cap calls c Hrun) as Hinv.
    destruct (remove_hit c k it (inv_wf _ _ _ Hinv) Hk)
      as (v & l1 & l2 & Hl & Hnk & Hrem).
    exists v, l1, l2. repeat split; try done. apply lookup_delete_eq.
  - apply remove_miss.
  - intros cap calls c k Hrun.
    pose proof (run_inv cap calls c Hrun) as Hinv.
    destruct (cacheMap c !! k) as [it|] eqn:Hk.
    + destruct (remove_hit c k it (inv_wf _ _ _ Hinv) Hk)
        as (v & l1 & l2 & Hl & Hnk & Hrem).
      eexists. split; [done|]. apply remove_miss. apply lookup_delete_eq.
    + exists c. by rewrite remove_miss.
Qed.

(** C7. Round trip.  With capacity at least 1, in the state any history
    leads to, [put(k, v)] returns and a [get(k)] right after it returns
    [true] and the value [v]. *)
Theorem put_then_get (cap : nat) (calls : list call) (k : K) (v value : V) :
  1 ≤ cap →
  ∃ c c' c'',
    run (LRUCache_new cap) calls = Some c ∧
    put c k v = Some c' ∧
    get c' k value = Some (true, v, c'').
Proof.
  intros Hpos. destruct (run_defined cap calls) as (c & Hrun & Hinv).
  destruct (inv_put cap calls c k v Hinv) as (c' & Hput & Hinv').
  destruct (put_keeps_key cap calls c c' k v Hinv Hpos Hput) as [it Hk].
  destruct (get_hit c' k it value (inv_wf _ _ _ Hinv') Hk)
    as (v' & l1 & l2 & Hl & Hnk & Hget).
  assert (last_put k (calls ++ [Put k v]) = Some v') as Hlast.
  { apply (inv_hist _ _ _ Hinv' it). rewrite Hl. set_solver. }
  rewrite last_put_snoc, decide_True in Hlast by done.
  injection Hlast as <-. by exists c, c', (with_items c' ((it, (k, v)) :: l1 ++ l2)).
Qed.

(** C10. Capacity 0.  The constructor stores 0 as it is.  Every sequence
    of calls on such a cache runs, without undefined behaviour, to the
    empty cache.  There, [put] first links the new node and maps the key
    to it, so the list is that one node; the size 1 is over the capacity,
    the node at the back is that same node, and evicting it gives the
    empty cache again.  So [size()] is 0 and every [get] returns [false]. *)
Theorem capacity_zero :
  capacity_ (LRUCache_new 0) = 0 ∧
  (∀ calls : list call,
     run (LRUCache_new 0) calls = Some (LRUCache_new 0)) ∧
  (∀ (k : K) (v : V),
     ∃ n : node,
       node_key n = k ∧ node_value n = v ∧
       insert_front (LRUCache_new 0) k v =
       Some {| capacity_ := 0; cache_items_ := [n];
               cacheMap := {[ k := node_it n ]} |} ∧
       end_prev [n] = Some n ∧
       pop_back [n] = Some [] ∧
       evict_if_over {| capacity_ := 0; cache_items_ := [n];
                        cacheMap := {[ k := node_it n ]} |}
       = Some (LRUCache_new 0) ∧
       put (LRUCache_new 0) k v = Some (LRUCache_new 0)) ∧
  size (LRUCache_new 0) = 0 ∧
  (∀ (k : K) (value : V),
     get (LRUCache_new 0) k value = Some (false, value, LRUCache_new 0)).
Proof.
  split; [done|]. split; [|split; [|split]].
  - intros calls. destruct (run_defined 0 calls) as (c & Hrun & Hinv).
    by rewrite Hrun, (inv_zero calls c Hinv).
  - intros k v. exists (1, (k, v)). do 5 (split; [done|]).
    assert (evict_if_over {| capacity_ := 0; cache_items_ := [(1, (k, v))];
                             cacheMap := {[ k := 1 ]} |}
            = Some (LRUCache_new 0)) as Hev.
    { unfold evict_if_over. simpl. rewrite map_size_singleton.
      rewrite decide_True by lia. simpl. unfold LRUCache_new, node_key. simpl.
      by rewrite delete_singleton_eq. }
    split; [done|]. unfold put.
    change (cacheMap (LRUCache_new 0) !! k) with ((∅ : gmap K nat) !! k).
    rewrite lookup_empty, insert_front_eq. exact Hev.
  - unfold size. simpl. apply map_size_empty.
  - intros k value. apply get_miss. apply lookup_empty.
Qed.

(** * More on [LRUCache.h] *)

(** ** Reachable states, one call at a time *)

Lemma run_app (c : LRUCache) (calls1 calls2 : list call) :
  run c (calls1 ++ calls2) = c' ← run c calls1; run c' calls2.
Proof.
  revert c. induction calls1 as [|o calls1 IH]; intros c; simpl; [done|].
  destruct (exec c o) as [c'|]; simpl; [apply IH|done].
Qed.

Lemma run_snoc_inv (c0 c' : LRUCache) (calls : list call) (o : call) :
  run c0 (calls ++ [o]) = Some c' →
  ∃ c, run c0 calls = Some c ∧ exec c o = Some c'.
Proof.
  rewrite run_snoc. destruct (run c0 calls) as [c|]; [|done].
  intros Hexec. by exists c.
Qed.

(** Induction over the histories of a new cache. *)
Lemma reachable_ind (cap : nat) (P : list call → LRUCache → Prop) :
  P [] (LRUCache_new cap) →
  (∀ calls c o c',
     run (LRUCache_new cap) calls = Some c → P calls c →
     exec c o = Some c' → P (calls ++ [o]) c') →
  ∀ calls c, run (LRUCache_new cap) calls = Some c → P calls c.
Proof.
  intros Hnew Hstep calls.
  induction calls as [|o calls IH] using rev_ind; intros c Hrun.
  - injection Hrun as <-. done.
  - apply run_snoc_inv in Hrun as (c0 & Hrun & Hexec). eauto.
Qed.

(** ** Lemmas on the list model *)

Lemma assoc_notin (k : K) (es : list (K * V)) :
  k ∉ es.*1 → assoc k es = None.
Proof.
  induction es as [|[k' v] es IH]; simpl; [done|].
  rewrite not_elem_of_cons. intros [Hne Hnotin].
  rewrite decide_False by done. by apply IH.
Qed.

Lemma assoc_Some_elem_of (k : K) (v : V) (es : list (K * V)) :
  assoc k es = Some v → (k, v) ∈ es.
Proof.
  induction es as [|[k' v'] es IH]; simpl; [done|].
  case_decide as Hk.
  - intros [= ->]. subst. by left.
  - intros Hes. right. by apply IH.
Qed.

Lemma assoc_is_Some (k : K) (es : list (K * V)) :
  is_Some (assoc k es) ↔ k ∈ es.*1.
Proof.
  split.
  - intros [v Hv%assoc_Some_elem_of]. apply list_elem_of_fmap. by exists (k, v).
  - intros Hin. destruct (assoc k es) as [v|] eqn:Hes; [by eexists|].
    induction es as [|[k' v'] es IH]; simpl in *; [by apply elem_of_nil in Hin|].
    case_decide as Hk; [done|].
    apply elem_of_cons in Hin as [->|Hin]; [done|]. by apply IH.
Qed.

Lemma assoc_middle (k : K) (v : V) (es1 es2 : list (K * V)) :
  k ∉ es1.*1 → assoc k (es1 ++ (k, v) :: es2) = Some v.
Proof.
  induction es1 as [|[k' v'] es1 IH]; simpl.
  - intros _. by rewrite decide_True.
  - rewrite not_elem_of_cons. intros [Hne Hnotin].
    rewrite decide_False by done. by apply IH.
Qed.

Lemma without_notin (k : K) (es : list (K * V)) :
  k ∉ es.*1 → without k es = es.
Proof.
  unfold without. induction es as [|[k' v] es IH]; simpl; [done|].
  rewrite not_elem_of_cons. intros [Hne Hnotin].
  rewrite filter_cons_True by (simpl; congruence). by rewrite IH.
Qed.

Lemma without_middle (k : K) (v : V) (es1 es2 : list (K * V)) :
  k ∉ (es1 ++ es2).*1 → without k (es1 ++ (k, v) :: es2) = es1 ++ es2.
Proof.
  rewrite fmap_app, not_elem_of_app. intros [Hn1 Hn2]. unfold without.
  rewrite filter_app, filter_cons_False by (simpl; intros Hne; by apply Hne).
  fold (without k es1) (without k es2). by rewrite !without_notin.
Qed.

Lemma entries_middle (l1 l2 : list node) (n : node) :
  (l1 ++ n :: l2).*2 = l1.*2 ++ n.2 :: l2.*2.
Proof. by rewrite fmap_app, fmap_cons. Qed.

(** ** The class refines the list model *)

Lemma keys_notin_of_miss (c : LRUCache) (k : K) :
  wf c → cacheMap c !! k = None → k ∉ (entries c).*1.
Proof.
  intros Hwf Hk Hin. apply (keys_elem_of c k Hwf) in Hin as [it Hit].
  congruence.
Qed.

Lemma get_refines (c : LRUCache) (k : K) (value : V) :
  wf c →
  ∃ c',
    get c k value =
    Some (match assoc k (entries c) with
          | Some v => (true, v)
          | None => (false, value)
          end, c') ∧
    entries c' = model_get (entries c) k ∧
    capacity_ c' = capacity_ c.
Proof.
  intros Hwf. unfold model_get. destruct (cacheMap c !! k) as [it|] eqn:Hk.
  - destruct (get_hit c k it value Hwf Hk) as (v & l1 & l2 & Hl & Hnk & ->).
    unfold entries. rewrite Hl, entries_middle. simpl.
    rewrite assoc_middle, without_middle.
    + eexists. split; [done|]. simpl. by rewrite fmap_app.
    + by rewrite <- fmap_app.
    + rewrite !fmap_app, not_elem_of_app in Hnk. by destruct Hnk.
  - rewrite get_miss by done.
    rewrite assoc_notin by by apply keys_notin_of_miss. by exists c.
Qed.

Lemma put_refines (cap : nat) (calls : list call) (c : LRUCache)
    (k : K) (v : V) :
  inv cap calls c →
  ∃ c', put c k v = Some c' ∧ entries c' = model_put cap (entries c) k v.
Proof.
  intros [Hcap Hwf Hlen Hhist Hrec]. unfold model_put.
  destruct (cacheMap c !! k) as [it|] eqn:Hk.
  - destruct (put_hit c k it v Hwf Hk) as (v0 & l1 & l2 & Hl & Hnk & ->).
    eexists. split; [done|]. unfold entries. rewrite Hl, entries_middle.
    simpl. rewrite without_middle by by rewrite <- fmap_app.
    rewrite take_ge; [by rewrite fmap_app|].
    rewrite Hl, length_app in Hlen. simpl in *.
    rewrite length_app, !length_fmap. lia.
  - rewrite without_notin by by apply keys_notin_of_miss.
    destruct (decide (length (cache_items_ c) < capacity_ c)) as [Hlt|Hge].
    + rewrite put_miss_fits by done. eexists. split; [done|].
      unfold entries. simpl. rewrite take_ge; [done|].
      simpl. rewrite length_fmap. lia.
    + destruct (exists_last
        (l := (fresh_node (cache_items_ c), (k, v)) :: cache_items_ c))
        as (l & lru & Hl); [done|].
      erewrite put_miss_evicts; [|done|done|lia|done].
      eexists. split; [done|]. unfold entries. simpl.
      change ((k, v) :: (cache_items_ c).*2)
        with (((fresh_node (cache_items_ c), (k, v)) :: cache_items_ c).*2).
      rewrite Hl, fmap_app. rewrite take_app_length'; [done|].
      apply (f_equal length) in Hl. rewrite length_app in Hl. simpl in Hl.
      rewrite length_fmap. lia.
Qed.

Lemma remove_refines (c : LRUCache) (k : K) :
  wf c →
  ∃ c', remove c k = Some c' ∧ entries c' = model_remove (entries c) k ∧
        capacity_ c' = capacity_ c.
Proof.
  intros Hwf. unfold model_remove.
  destruct (cacheMap c !! k) as [it|] eqn:Hk.
  - destruct (remove_hit c k it Hwf Hk) as (v & l1 & l2 & Hl & Hnk & ->).
    eexists. split; [done|]. unfold entries. rewrite Hl, entries_middle.
    simpl. rewrite without_middle by by rewrite <- fmap_app.
    by rewrite fmap_app.
  - rewrite remove_miss by done. exists c.
    by rewrite without_notin by by apply keys_notin_of_miss.
Qed.

Lemma exec_refines (cap : nat) (calls : list call) (c c' : LRUCache)
    (o : call) :
  inv cap calls c → exec c o = Some c' →
  entries c' = model_exec cap (entries c) o.
Proof.
  intros Hinv Hexec. destruct o as [k value|k v|k|]; simpl in *.
  - destruct (get_refines c k value (inv_wf _ _ _ Hinv)) as (c1 & Hget & He & _).
    rewrite Hget in Hexec. simpl in Hexec. by injection Hexec as <-.
  - destruct (put_refines cap calls c k v Hinv) as (c1 & Hput & He).
    rewrite Hput in Hexec. by injection Hexec as <-.
  - destruct (remove_refines c k (inv_wf _ _ _ Hinv)) as (c1 & Hrem & He & _).
    rewrite Hrem in Hexec. by injection Hexec as <-.
  - by injection Hexec as <-.
Qed.

Lemma run_refines (cap : nat) (calls : list call) (c : LRUCache) :
  run (LRUCache_new cap) calls = Some c →
  entries c = model_run cap [] calls.
Proof.
  revert calls c. apply reachable_ind; [done|].
  intros calls c o c' Hrun IH Hexec. unfold model_run in *.
  rewrite foldl_snoc, <- IH.
  eapply exec_refines; [by apply run_inv|done].
Qed.

Lemma get_result_assoc (c : LRUCache) (k : K) (value : V) :
  wf c →
  get_result c k value =
  Some (match assoc k (entries c) with
        | Some v => (true, v)
        | None => (false, value)
        end).
Proof.
  intros Hwf. destruct (get_refines c k value Hwf) as (c' & Hget & _).
  unfold get_result. by rewrite Hget.
Qed.

Lemma assoc_without_ne (k k' : K) (es : list (K * V)) :
  k' ≠ k → assoc k' (without k es) = assoc k' es.
Proof.
  intros Hne. unfold without.
  induction es as [|[k0 v0] es IH]; simpl; [done|].
  destruct (decide (k0 = k)) as [->|Hk0].
  - rewrite filter_cons_False by (simpl; intros Hn; by apply Hn).
    rewrite decide_False by done. apply IH.
  - rewrite filter_cons_True by done. simpl. by rewrite IH.
Qed.

Lemma assoc_without_eq (k : K) (es : list (K * V)) :
  assoc k (without k es) = None.
Proof.
  apply assoc_notin. unfold without. intros Hin.
  apply list_elem_of_fmap in Hin as ([k' v] & -> & Hin).
  apply list_elem_of_filter in Hin as [Hne _]. by apply Hne.
Qed.

Lemma assoc_take_Some (k : K) (v : V) (n : nat) (es : list (K * V)) :
  assoc k (take n es) = Some v → assoc k es = Some v.
Proof.
  revert n. induction es as [|[k' v'] es IH]; intros [|n]; simpl; try done.
  case_decide; [done|]. apply IH.
Qed.

Lemma assoc_elem_of_NoDup (k : K) (v : V) (es : list (K * V)) :
  NoDup es.*1 → (k, v) ∈ es → assoc k es = Some v.
Proof.
  intros Hnd Hin. apply list_elem_of_split in Hin as (es1 & es2 & ->).
  apply assoc_middle. rewrite fmap_app, fmap_cons in Hnd.
  apply NoDup_app in Hnd as (_ & Hdisj & _). intros Hin.
  apply (Hdisj _ Hin). by left.
Qed.

Lemma length_without (k : K) (es : list (K * V)) :
  NoDup es.*1 → k ∈ es.*1 → S (length (without k es)) = length es.
Proof.
  intros Hnd Hin. apply list_elem_of_fmap in Hin as ([k' v] & -> & Hin).
  apply list_elem_of_split in Hin as (es1 & es2 & ->). simpl.
  rewrite fmap_app, fmap_cons in Hnd. simpl in Hnd.
  rewrite <- Permutation_middle in Hnd. apply NoDup_cons in Hnd as [Hnk _].
  rewrite without_middle by by rewrite fmap_app.
  rewrite !length_app. simpl. lia.
Qed.

(** One node per address: two nodes of the list at the same address are
    the same node. *)
Lemma NoDup_its_agree (l : list node) (it : iterator) (kv1 kv2 : K * V) :
  NoDup (l.*1) → (it, kv1) ∈ l → (it, kv2) ∈ l → kv1 = kv2.
Proof.
  intros Hnd Hin1 Hin2.
  destruct (NoDup_its_split l it kv1 Hnd Hin1) as (l1 & l2 & -> & Hn1 & Hn2).
  apply elem_of_app in Hin2 as [Hin2|Hin2].
  - destruct Hn1. apply list_elem_of_fmap. by exists (it, kv2).
  - apply elem_of_cons in Hin2 as [[= ->]|Hin2]; [done|].
    destruct Hn2. apply list_elem_of_fmap. by exists (it, kv2).
Qed.

(** ** Further properties of the class *)

(** X1. To its caller the class is the list model: after any history
    the pairs of the list, most recently used first, are those the model
    computes; [size()] is their number; and [get] of any key returns
    [true] with the value paired with the key there, or [false] with the
    out-parameter untouched when the key is not there. *)
Theorem reachable_refines_model (cap : nat) (calls : list call) :
  ∃ c,
    run (LRUCache_new cap) calls = Some c ∧
    entries c = model_run cap [] calls ∧
    size c = length (model_run cap [] calls) ∧
    ∀ k value,
      get_result c k value =
      Some (match assoc k (model_run cap [] calls) with
            | Some v => (true, v)
            | None => (false, value)
            end).
Proof.
  destruct (run_defined cap calls) as (c & Hrun & Hinv).
  pose proof (run_refines cap calls c Hrun) as He.
  exists c. split; [done|]. split; [done|]. split.
  - unfold size. rewrite wf_size_length by apply Hinv.
    rewrite <- He. unfold entries. by rewrite length_fmap.
  - intros k value. rewrite <- He. apply get_result_assoc, Hinv.
Qed.

(** X2. After any history no key is stored twice in the list, no two
    nodes share an address, and the index maps different keys to
    different nodes. *)
Theorem keys_never_repeat (cap : nat) (calls : list call) :
  ∃ c,
    run (LRUCache_new cap) calls = Some c ∧
    NoDup (keys c) ∧
    NoDup (cache_items_ c).*1 ∧
    ∀ k1 k2 it,
      cacheMap c !! k1 = Some it → cacheMap c !! k2 = Some it → k1 = k2.
Proof.
  destruct (run_defined cap calls) as (c & Hrun & Hinv).
  destruct (inv_wf _ _ _ Hinv) as [Hits Hkeys Hmap].
  exists c. repeat split; try done.
  intros k1 k2 it [v1 Hk1]%Hmap%locators_elem_of [v2 Hk2]%Hmap%locators_elem_of.
  by injection (NoDup_its_agree _ _ _ _ Hits Hk1 Hk2).
Qed.

(** X3. The order of the list is the order of the latest accesses: of
    two keys in the list, the one nearer to the front was got or put
    later in the history than the other. *)
Theorem list_in_access_order (cap : nat) (calls : list call) (c : LRUCache)
    (l1 l2 l3 : list K) (k1 k2 : K) :
  run (LRUCache_new cap) calls = Some c →
  keys c = l1 ++ k1 :: l2 ++ k2 :: l3 →
  last_access k2 calls < last_access k1 calls.
Proof.
  intros Hrun Hkeys.
  pose proof (inv_recency _ _ _ (run_inv cap calls c Hrun)) as Hrec.
  unfold recency_ordered in Hrec. rewrite Hkeys in Hrec.
  apply StronglySorted_app_1_r, StronglySorted_cons in Hrec as [Hall _].
  eapply Forall_forall in Hall; [exact Hall|].
  apply elem_of_app. right. by left.
Qed.

Lemma without_keys_notin (k k' : K) (es : list (K * V)) :
  k ∉ es.*1 → k ∉ (without k' es).*1.
Proof.
  intros Hnotin Hin. apply Hnotin.
  apply list_elem_of_fmap in Hin as (e & -> & Hin).
  apply list_elem_of_filter in Hin as [_ Hin].
  apply list_elem_of_fmap. by exists e.
Qed.

Lemma without_app_keep (k k' : K) (v : V) (es1 es2 : list (K * V)) :
  k ≠ k' →
  without k' (es1 ++ (k, v) :: es2) = without k' es1 ++ (k, v) :: without k' es2.
Proof.
  intros Hne. unfold without. by rewrite filter_app, filter_cons_True.
Qed.

Lemma take_keys_notin (k : K) (n : nat) (es : list (K * V)) :
  k ∉ es.*1 → k ∉ (take n es).*1.
Proof.
  intros Hnotin Hin. apply Hnotin.
  apply list_elem_of_fmap in Hin as (e & -> & Hin).
  apply subseteq_take in Hin. apply list_elem_of_fmap. by exists e.
Qed.

Lemma take_cons_take (cap : nat) (e : K * V) (es : list (K * V)) :
  take cap (e :: take cap es) = take cap (e :: es).
Proof.
  destruct cap as [|n]; simpl; [done|].
  rewrite take_take. f_equal. f_equal. lia.
Qed.

(** Puts of distinct keys on a new cache, in the model: the latest
    [cap] of them, the last one first. *)
Lemma model_run_puts (cap : nat) (kvs : list (K * V)) :
  NoDup kvs.*1 →
  model_run cap [] ((λ e, Put e.1 e.2) <$> kvs) = take cap (reverse kvs).
Proof.
  unfold model_run.
  induction kvs as [|[k v] kvs IH] using rev_ind; intros Hnd.
  - by destruct cap.
  - rewrite fmap_app in Hnd. apply NoDup_app in Hnd as (Hnd & Hdisj & _).
    rewrite fmap_app, foldl_app, IH by done. simpl.
    unfold model_put. rewrite reverse_snoc, without_notin.
    + apply take_cons_take.
    + apply take_keys_notin. rewrite fmap_reverse, elem_of_reverse.
      intros Hin. apply (Hdisj _ Hin). by left.
Qed.

(** X4. Puts of pairwise distinct keys on a new cache of capacity
    [cap]: the cache then holds the last [cap] of the pairs put, the
    latest first; every one of these is found with its value, and no
    other key is found.  (With [cap + 1] puts the first key put is the
    one that is gone.) *)
Theorem puts_of_distinct_keys (cap : nat) (kvs : list (K * V)) :
  NoDup kvs.*1 →
  ∃ c,
    run (LRUCache_new cap) ((λ e, Put e.1 e.2) <$> kvs) = Some c ∧
    entries c = take cap (reverse kvs) ∧
    (∀ k v value,
       (k, v) ∈ take cap (reverse kvs) →
       get_result c k value = Some (true, v)) ∧
    (∀ k value,
       k ∉ (take cap (reverse kvs)).*1 →
       get_result c k value = Some (false, value)).
Proof.
  intros Hnd.
  destruct (run_defined cap ((λ e, Put e.1 e.2) <$> kvs)) as (c & Hrun & Hinv).
  pose proof (run_refines cap _ c Hrun) as He.
  rewrite model_run_puts in He by done.
  exists c. split; [done|]. split; [done|]. split.
  - intros k v value Hin.
    rewrite get_result_assoc, He by apply Hinv.
    rewrite (assoc_elem_of_NoDup k v); [done| |done].
    rewrite <- He. apply (wf_keys c), Hinv.
  - intros k value Hnotin.
    rewrite get_result_assoc, He by apply Hinv.
    by rewrite assoc_notin.
Qed.

(** X5. A second [get] of the same key right after a [get] returns the
    same flag and value and leaves the cache exactly as the first [get]
    left it. *)
Theorem get_twice (cap : nat) (calls : list call) :
  ∃ c,
    run (LRUCache_new cap) calls = Some c ∧
    ∀ k value value',
    ∃ b v c',
      get c k value = Some (b, v, c') ∧
      get c' k value' = Some (b, if b then v else value', c').
Proof.
  destruct (run_defined cap calls) as (c & Hrun & Hinv).
  exists c. split; [done|]. intros k value value'.
  destruct (cacheMap c !! k) as [it|] eqn:Hk.
  - destruct (get_hit c k it value (inv_wf _ _ _ Hinv) Hk)
      as (v & l1 & l2 & Hl & Hnk & Hget).
    eexists true, v, _. split; [done|].
    unfold get, splice_begin, deref. simpl. rewrite Hk. simpl.
    rewrite decide_True by done. simpl. by rewrite decide_True.
  - exists false, value, c. by rewrite !get_miss.
Qed.

(** Each call with what it keeps and what it does to the pairs. *)
Lemma get_step (cap : nat) (calls : list call) (c : LRUCache)
    (k : K) (value : V) :
  inv cap calls c →
  ∃ r, get c k value = Some r ∧ inv cap (calls ++ [Get k value]) r.2 ∧
       entries r.2 = model_get (entries c) k.
Proof.
  intros Hinv. destruct (inv_get cap calls c k value Hinv) as (r & Hget & Hr).
  exists r. do 2 (split; [done|]).
  apply (exec_refines cap calls c r.2 (Get k value) Hinv). simpl.
  by rewrite Hget.
Qed.

Lemma put_step (cap : nat) (calls : list call) (c : LRUCache) (k : K) (v : V) :
  inv cap calls c →
  ∃ c', put c k v = Some c' ∧ inv cap (calls ++ [Put k v]) c' ∧
        entries c' = model_put cap (entries c) k v.
Proof.
  intros Hinv. destruct (inv_put cap calls c k v Hinv) as (c' & Hput & Hc').
  exists c'. do 2 (split; [done|]).
  by apply (exec_refines cap calls c c' (Put k v) Hinv).
Qed.

Lemma remove_step (cap : nat) (calls : list call) (c : LRUCache) (k : K) :
  inv cap calls c →
  ∃ c', remove c k = Some c' ∧ inv cap (calls ++ [Remove k]) c' ∧
        entries c' = model_remove (entries c) k.
Proof.
  intros Hinv. destruct (inv_remove cap calls c k Hinv) as (c' & Hrem & Hc').
  exists c'. do 2 (split; [done|]).
  by apply (exec_refines cap calls c c' (Remove k) Hinv).
Qed.

Lemma size_entries (c : LRUCache) : wf c → size c = length (entries c).
Proof.
  intros Hwf. unfold size, entries.
  by rewrite wf_size_length, length_fmap.
Qed.

Lemma inv_size (cap : nat) (calls : list call) (c : LRUCache) :
  inv cap calls c → length (entries c) ≤ cap.
Proof. intros Hinv. unfold entries. rewrite length_fmap. apply Hinv. Qed.

Lemma assoc_model_get (k k' : K) (es : list (K * V)) :
  assoc k' (model_get es k) = assoc k' es.
Proof.
  unfold model_get. destruct (assoc k es) as [v|] eqn:Hk; [|done]. simpl.
  destruct (decide (k = k')) as [<-|Hne]; [done|].
  apply assoc_without_ne. congruence.
Qed.

Lemma length_model_get (k : K) (es : list (K * V)) :
  NoDup es.*1 → length (model_get es k) = length es.
Proof.
  intros Hnd. unfold model_get. destruct (assoc k es) as [v|] eqn:Hk; [|done].
  simpl. apply length_without; [done|]. apply assoc_is_Some. by eexists.
Qed.

(** After a [put] with room for one entry at least, the node of the key
    is the first of the list. *)
Lemma put_head (cap : nat) (calls : list call) (c : LRUCache) (k : K) (v : V) :
  inv cap calls c → 1 ≤ cap →
  ∃ c' it rest,
    put c k v = Some c' ∧ inv cap (calls ++ [Put k v]) c' ∧
    cache_items_ c' = (it, (k, v)) :: rest ∧ cacheMap c' !! k = Some it.
Proof.
  intros Hinv Hpos.
  destruct (put_step cap calls c k v Hinv) as (c' & Hput & Hinv' & He).
  assert (∃ es, entries c' = (k, v) :: es) as [es Hes].
  { rewrite He. unfold model_put. destruct cap as [|n]; [lia|]. simpl.
    by eexists. }
  unfold entries in Hes.
  destruct (cache_items_ c') as [|[it kv] rest] eqn:Hl; [done|].
  simpl in Hes. injection Hes as -> _.
  exists c', it, rest. do 3 (split; [done|]).
  apply (wf_map c'); [apply Hinv'|]. rewrite Hl. apply locators_elem_of.
  exists v. by left.
Qed.

(** X6. A second [put] of the same key and value right after a [put]
    leaves the cache exactly as the first [put] left it. *)
Theorem put_twice (cap : nat) (calls : list call) :
  ∃ c,
    run (LRUCache_new cap) calls = Some c ∧
    ∀ k v, ∃ c', put c k v = Some c' ∧ put c' k v = Some c'.
Proof.
  destruct (run_defined cap calls) as (c & Hrun & Hinv).
  exists c. split; [done|]. intros k v.
  destruct cap as [|n].
  - apply inv_zero in Hinv as ->. exists (LRUCache_new 0).
    assert (put (LRUCache_new 0) k v = Some (LRUCache_new 0)) as Hput.
    { destruct (inv_put 0 [] (LRUCache_new 0) k v (inv_new 0))
        as (c' & Hput & Hinv').
      by rewrite Hput, (inv_zero _ _ Hinv'). }
    done.
  - destruct (put_head (S n) calls c k v Hinv) as
      (c' & it & rest & Hput & Hinv' & Hl & Hk); [lia|].
    exists c'. split; [done|].
    unfold put, splice_begin. rewrite Hk, Hl. simpl.
    rewrite decide_True by done. simpl. rewrite decide_True by done. simpl.
    unfold with_items. rewrite <- Hl. by destruct c'.
Qed.

(** X7. After [remove(k)] a [get(k)] returns [false], and a [get] of
    any other key returns what it returned before the [remove]. *)
Theorem remove_then_get (cap : nat) (calls : list call) :
  ∃ c,
    run (LRUCache_new cap) calls = Some c ∧
    ∀ k,
    ∃ c',
      remove c k = Some c' ∧
      (∀ value, get_result c' k value = Some (false, value)) ∧
      (∀ k' value, k' ≠ k → get_result c' k' value = get_result c k' value).
Proof.
  destruct (run_defined cap calls) as (c & Hrun & Hinv).
  exists c. split; [done|]. intros k.
  destruct (remove_step cap calls c k Hinv) as (c' & Hrem & Hinv' & He).
  exists c'. split; [done|]. split.
  - intros value. rewrite get_result_assoc, He by apply Hinv'.
    unfold model_remove. by rewrite assoc_without_eq.
  - intros k' value Hne.
    rewrite !get_result_assoc, He by (apply Hinv' || apply Hinv).
    unfold model_remove. by rewrite assoc_without_ne.
Qed.

(** X8. How each call changes [size()]: [get] never does; [put] of a
    present key does not, [put] of an absent key adds one unless the
    cache is full; [remove] takes one off for a present key and nothing
    for an absent one. *)
Theorem size_after_call (cap : nat) (calls : list call) :
  ∃ c,
    run (LRUCache_new cap) calls = Some c ∧
    (∀ k value, ∃ r, get c k value = Some r ∧ size r.2 = size c) ∧
    (∀ k v,
     ∃ c',
       put c k v = Some c' ∧
       size c' = if decide (k ∈ keys c) then size c
                 else Nat.min cap (S (size c))) ∧
    (∀ k,
     ∃ c',
       remove c k = Some c' ∧
       size c' = if decide (k ∈ keys c) then size c - 1 else size c).
Proof.
  destruct (run_defined cap calls) as (c & Hrun & Hinv).
  pose proof (wf_keys c (inv_wf _ _ _ Hinv)) as Hnd.
  pose proof (inv_size _ _ _ Hinv) as Hle.
  exists c. split; [done|]. rewrite (size_entries c) by apply Hinv.
  unfold keys in *. split; [|split].
  - intros k value.
    destruct (get_step cap calls c k value Hinv) as (r & Hget & Hinv' & He).
    exists r. split; [done|]. rewrite size_entries, He by apply Hinv'.
    by apply length_model_get.
  - intros k v.
    destruct (put_step cap calls c k v Hinv) as (c' & Hput & Hinv' & He).
    exists c'. split; [done|]. rewrite size_entries, He by apply Hinv'.
    unfold model_put. rewrite length_take. simpl. case_decide as Hk.
    + rewrite length_without by done. lia.
    + by rewrite without_notin.
  - intros k.
    destruct (remove_step cap calls c k Hinv) as (c' & Hrem & Hinv' & He).
    exists c'. split; [done|]. rewrite size_entries, He by apply Hinv'.
    unfold model_remove. case_decide as Hk.
    + pose proof (length_without k _ Hnd Hk). lia.
    + by rewrite without_notin.
Qed.

(** X9. A [get], hit or miss, changes nothing of what a later [get] of
    any key returns. *)
Theorem get_keeps_lookups (cap : nat) (calls : list call) :
  ∃ c,
    run (LRUCache_new cap) calls = Some c ∧
    ∀ k value,
    ∃ r,
      get c k value = Some r ∧
      ∀ k' value', get_result r.2 k' value' = get_result c k' value'.
Proof.
  destruct (run_defined cap calls) as (c & Hrun & Hinv).
  exists c. split; [done|]. intros k value.
  destruct (get_step cap calls c k value Hinv) as (r & Hget & Hinv' & He).
  exists r. split; [done|]. intros k' value'.
  rewrite !get_result_assoc, He by (apply Hinv' || apply Hinv).
  by rewrite assoc_model_get.
Qed.

(** X10. A [put(k, v)] and the other keys: it never changes the value
    found for another key, nor makes another key appear; and when [k] is
    present already, or the cache is not full, every other key is found
    exactly as before (nothing is evicted). *)
Theorem put_keeps_other_keys (cap : nat) (calls : list call) :
  ∃ c,
    run (LRUCache_new cap) calls = Some c ∧
    ∀ k v,
    ∃ c',
      put c k v = Some c' ∧
      ∀ k' value,
        k' ≠ k →
        (∀ v', get_result c' k' value = Some (true, v') →
               get_result c k' value = Some (true, v')) ∧
        (k ∈ keys c ∨ size c < cap →
         get_result c' k' value = get_result c k' value).
Proof.
  destruct (run_defined cap calls) as (c & Hrun & Hinv).
  pose proof (wf_keys c (inv_wf _ _ _ Hinv)) as Hnd.
  pose proof (inv_size _ _ _ Hinv) as Hle.
  exists c. split; [done|]. intros k v.
  destruct (put_step cap calls c k v Hinv) as (c' & Hput & Hinv' & He).
  exists c'. split; [done|]. intros k' value Hne.
  rewrite !get_result_assoc, He by (apply Hinv' || apply Hinv).
  unfold model_put. split.
  - intros v' Hv'.
    destruct (assoc k' (take cap ((k, v) :: without k (entries c))))
      as [w|] eqn:Hw; [|done].
    injection Hv' as ->. apply assoc_take_Some in Hw. simpl in Hw.
    rewrite decide_False, assoc_without_ne in Hw by done. by rewrite Hw.
  - intros Hroom. rewrite take_ge.
    + simpl. by rewrite decide_False, assoc_without_ne by done.
    + simpl. rewrite (size_entries c) in Hroom by apply Hinv.
      unfold keys in *. destruct Hroom as [Hk|Hlt].
      * rewrite length_without by done. lia.
      * pose proof (length_filter (λ e, e.1 ≠ k) (entries c)) as Hf.
        unfold without. lia.
Qed.

Lemma exec_keeps_locator (cap : nat) (calls : list call) (c c' : LRUCache)
    (o : call) (k' : K) (it it' : iterator) :
  inv cap calls c → exec c o = Some c' →
  cacheMap c !! k' = Some it → cacheMap c' !! k' = Some it' → it' = it.
Proof.
  intros [Hcap Hwf Hlen Hhist Hrec] Hexec Hit Hit'.
  destruct o as [k value|k v|k|]; simpl in Hexec.
  - destruct (cacheMap c !! k) as [j|] eqn:Hk.
    + destruct (get_hit c k j value Hwf Hk) as (v & l1 & l2 & _ & _ & Hget).
      rewrite Hget in Hexec. injection Hexec as <-. simpl in Hit'. congruence.
    + rewrite get_miss in Hexec by done. injection Hexec as <-. congruence.
  - destruct (cacheMap c !! k) as [j|] eqn:Hk.
    + destruct (put_hit c k j v Hwf Hk) as (v0 & l1 & l2 & _ & _ & Hput).
      rewrite Hput in Hexec. injection Hexec as <-. simpl in Hit'. congruence.
    + assert (k ≠ k') as Hne by congruence.
      destruct (decide (length (cache_items_ c) < capacity_ c)) as [Hlt|Hge].
      * rewrite put_miss_fits in Hexec by done. injection Hexec as <-.
        simpl in Hit'. rewrite lookup_insert_ne in Hit' by done. congruence.
      * destruct (exists_last
          (l := (fresh_node (cache_items_ c), (k, v)) :: cache_items_ c))
          as (l & lru & Hl); [done|].
        erewrite put_miss_evicts in Hexec; [|done|done|lia|done].
        injection Hexec as <-. simpl in Hit'.
        apply lookup_delete_Some in Hit' as [_ Hit'].
        rewrite lookup_insert_ne in Hit' by done. congruence.
  - destruct (cacheMap c !! k) as [j|] eqn:Hk.
    + destruct (remove_hit c k j Hwf Hk) as (v & l1 & l2 & _ & _ & Hrem).
      rewrite Hrem in Hexec. injection Hexec as <-. simpl in Hit'.
      apply lookup_delete_Some in Hit' as [_ Hit']. congruence.
    + rewrite remove_miss in Hexec by done. injection Hexec as <-. congruence.
  - injection Hexec as <-. congruence.
Qed.

(** X11. Iterators stay valid: whatever call is made, a key that is in
    the index before and after the call is mapped to the same node; the
    index never has to be updated when nodes are moved. *)
Theorem locators_are_stable (cap : nat) (calls : list call) :
  ∃ c,
    run (LRUCache_new cap) calls = Some c ∧
    ∀ o,
    ∃ c',
      exec c o = Some c' ∧
      ∀ k' it it',
        cacheMap c !! k' = Some it → cacheMap c' !! k' = Some it' → it' = it.
Proof.
  destruct (run_defined cap calls) as (c & Hrun & Hinv).
  exists c. split; [done|]. intros o.
  destruct (inv_exec cap calls c o Hinv) as (c' & Hexec & _).
  exists c'. split; [done|]. intros k' it it'.
  by apply (exec_keeps_locator cap calls c c' o).
Qed.

(** One call that is not about [k] moves the pair of [k] back by one
    place at most, and keeps it if it was not the last place. *)
Lemma model_exec_keeps (cap : nat) (o : call) (k : K) (v : V)
    (es1 es2 : list (K * V)) :
  k ∉ es1.*1 → o ≠ Remove k → touches k o = false →
  S (length es1) < cap →
  ∃ es1' es2',
    model_exec cap (es1 ++ (k, v) :: es2) o = es1' ++ (k, v) :: es2' ∧
    (k ∉ es1'.*1) ∧ length es1' ≤ S (length es1).
Proof.
  intros Hnk Hrem Htouch Hcap.
  destruct o as [k' value|k' v'|k'|]; simpl in *.
  - apply bool_decide_eq_false in Htouch. unfold model_get.
    destruct (assoc k' (es1 ++ (k, v) :: es2)) as [w|].
    + rewrite without_app_keep by congruence.
      exists ((k', w) :: without k' es1), (without k' es2).
      split; [done|]. split.
      * simpl. apply not_elem_of_cons. split; [congruence|].
        by apply without_keys_notin.
      * simpl. pose proof (length_filter (λ e, e.1 ≠ k') es1). unfold without.
        lia.
    + exists es1, es2. split; [done|]. split; [done|lia].
  - apply bool_decide_eq_false in Htouch. unfold model_put.
    rewrite without_app_keep by congruence.
    pose proof (length_filter (λ e, e.1 ≠ k') es1) as Hf.
    fold (without k' es1) in Hf.
    exists ((k', v') :: without k' es1),
      (take (cap - S (S (length (without k' es1)))) (without k' es2)).
    split; [|split].
    + rewrite app_comm_cons, take_app_ge by (simpl; lia). f_equal.
      simpl length.
      replace (cap - S (length (without k' es1)))
        with (S (cap - S (S (length (without k' es1))))) by lia.
      done.
    + simpl. apply not_elem_of_cons. split; [congruence|].
      by apply without_keys_notin.
    + simpl. lia.
  - unfold model_remove. rewrite without_app_keep by congruence.
    exists (without k' es1), (without k' es2). split; [done|]. split.
    + by apply without_keys_notin.
    + pose proof (length_filter (λ e, e.1 ≠ k') es1). unfold without. lia.
  - exists es1, es2. split; [done|]. split; [done|lia].
Qed.

Lemma model_run_keeps (cap : nat) (more : list call) (k : K) (v : V)
    (es1 es2 : list (K * V)) :
  k ∉ es1.*1 →
  (∀ o, o ∈ more → o ≠ Remove k ∧ touches k o = false) →
  length es1 + length more < cap →
  ∃ es1' es2',
    model_run cap (es1 ++ (k, v) :: es2) more = es1' ++ (k, v) :: es2' ∧
    k ∉ es1'.*1.
Proof.
  revert es1 es2. induction more as [|o more IH]; intros es1 es2 Hnk Hmore Hlen.
  - by exists es1, es2.
  - destruct (Hmore o) as [Hrem Htouch]; [by left|].
    destruct (model_exec_keeps cap o k v es1 es2 Hnk Hrem Htouch)
      as (es1' & es2' & Hexec & Hnk' & Hlen'); [simpl in Hlen; lia|].
    unfold model_run. simpl. rewrite Hexec. apply IH; [done| |simpl in Hlen; lia].
    intros o' Ho'. apply Hmore. by right.
Qed.

(** X12. An entry lasts: after [put(k, v)] on a cache of capacity
    [cap], any [more] calls, fewer than [cap] of them and none of them a
    get, put or remove of [k], leave [k] in the cache with the value [v]. *)
Theorem entry_survives_calls (cap : nat) (calls more : list call)
    (k : K) (v value : V) :
  (∀ o, o ∈ more → o ≠ Remove k ∧ touches k o = false) →
  length more < cap →
  ∃ c,
    run (LRUCache_new cap) (calls ++ Put k v :: more) = Some c ∧
    get_result c k value = Some (true, v).
Proof.
  intros Hmore Hlen.
  destruct (run_defined cap (calls ++ Put k v :: more)) as (c & Hrun & Hinv).
  exists c. split; [done|].
  rewrite get_result_assoc by apply Hinv.
  rewrite (run_refines cap _ c Hrun). unfold model_run.
  rewrite foldl_app. simpl. unfold model_put at 1.
  destruct cap as [|n]; [lia|]. simpl.
  destruct (model_run_keeps (S n) more k v [] (take n (without k
    (foldl (model_exec (S n)) [] calls)))) as (es1 & es2 & Hes & Hnk);
    [apply not_elem_of_nil|done|simpl; lia|].
  unfold model_run in Hes. simpl in Hes. rewrite Hes.
  by rewrite assoc_middle.
Qed.

(** The model also follows the class from any state a history leads to. *)
Lemma run_from_refines (cap : nat) (calls more : list call) (c : LRUCache) :
  run (LRUCache_new cap) calls = Some c →
  ∃ c',
    run c more = Some c' ∧ inv cap (calls ++ more) c' ∧
    entries c' = model_run cap (entries c) more.
Proof.
  intros Hrun.
  destruct (run_defined cap (calls ++ more)) as (c' & Hrun' & Hinv').
  pose proof (run_refines cap (calls ++ more) c' Hrun') as He'.
  pose proof (run_refines cap calls c Hrun) as He.
  rewrite run_app, Hrun in Hrun'. simpl in Hrun'.
  exists c'. do 2 (split; [done|]).
  unfold model_run in *. by rewrite He', foldl_app, <- He.
Qed.

(** Puts of distinct keys, no more of them than the capacity, in the
    model and from any list: they all stay, the latest first, in front
    of what is left of the list. *)
Lemma model_run_puts_front (cap : nat) (es kvs : list (K * V)) :
  NoDup kvs.*1 → length kvs ≤ cap →
  ∃ rest,
    model_run cap es ((λ e, Put e.1 e.2) <$> kvs) = reverse kvs ++ rest ∧
    rest `sublist_of` es.
Proof.
  unfold model_run.
  induction kvs as [|[k v] kvs IH] using rev_ind; intros Hnd Hlen.
  - by exists es.
  - rewrite fmap_app in Hnd. apply NoDup_app in Hnd as (Hnd & Hdisj & _).
    rewrite length_app in Hlen. simpl in Hlen.
    destruct IH as (rest & IH & Hsub); [done|lia|].
    exists (take (cap - S (length kvs)) (without k rest)). split.
    + rewrite fmap_app, foldl_app, IH. simpl. unfold model_put, without.
      rewrite filter_app. fold (without k (reverse kvs)) (without k rest).
      rewrite (without_notin k (reverse kvs)).
      * rewrite reverse_snoc, app_comm_cons.
        rewrite take_app_ge by (simpl; rewrite length_reverse; lia).
        simpl. by rewrite length_reverse.
      * rewrite fmap_reverse, elem_of_reverse.
        intros Hin. apply (Hdisj _ Hin). by left.
    + etrans; [apply sublist_take|]. etrans; [apply sublist_filter|done].
Qed.

(** X13. The capacity is a guarantee: puts of pairwise distinct keys,
    no more of them than the capacity, made in any state a history leads
    to, are all in the cache afterwards, the latest first at the front of
    the list; what follows them are pairs that were there before, in
    their order. *)
Theorem puts_within_capacity_all_stay (cap : nat) (calls : list call)
    (c : LRUCache) (kvs : list (K * V)) :
  run (LRUCache_new cap) calls = Some c →
  NoDup kvs.*1 → length kvs ≤ cap →
  ∃ c' rest,
    run c ((λ e, Put e.1 e.2) <$> kvs) = Some c' ∧
    entries c' = reverse kvs ++ rest ∧
    rest `sublist_of` entries c ∧
    ∀ k v value, (k, v) ∈ kvs → get_result c' k value = Some (true, v).
Proof.
  intros Hrun Hnd Hlen.
  destruct (run_from_refines cap calls ((λ e, Put e.1 e.2) <$> kvs) c Hrun)
    as (c' & Hrun' & Hinv' & He').
  destruct (model_run_puts_front cap (entries c) kvs Hnd Hlen)
    as (rest & Hm & Hsub).
  rewrite Hm in He'. exists c', rest. do 3 (split; [done|]).
  intros k v value Hin. rewrite get_result_assoc by apply Hinv'.
  rewrite (assoc_elem_of_NoDup k v); [done|apply (wf_keys c'), Hinv'|].
  rewrite He'. apply elem_of_app. left. by apply elem_of_reverse.
Qed.

End LRUCache.

Arguments LRUCache K {_ _} V.
Arguments call K V : clear implicits.

(** * The driver: [LRU Cache/main.cpp]

    [writer] and [reader] work on an [LRUCache<int, std::string>]. *)

(** An [int] has 32 bits; an [int] operation whose result does not fit
    is undefined: [None]. *)
Definition int_checked (z : Z) : option Z :=
  if decide (-2147483648 ≤ z ≤ 2147483647)%Z then Some z else None.

(** [thread_id * 100 + i] *)
Definition key_of (thread_id i : Z) : option Z :=
  m ← int_checked (thread_id * 100); int_checked (m + i).

(** [std::to_string] of an [int], and [<<] of an [int] to a stream:
    the decimal digits, after [-] for a negative number. *)
Definition to_string (n : Z) : string := pretty n.

(** ["Value_" + std::to_string(thread_id) + "_" + std::to_string(i)] *)
Definition value_of (thread_id i : Z) : string :=
  "Value_" +:+ to_string thread_id +:+ "_" +:+ to_string i.

(** The body of the loop of [writer]. *)
Definition writer_body (cache : LRUCache Z string) (thread_id i : Z)
  : option (LRUCache Z string) :=
  key ← key_of thread_id i;
  put cache key (value_of thread_id i).

(** What [reader] writes to [std::cout] before [std::endl]. *)
Definition line_of (thread_id key : Z) (value : string) : string :=
  "Thread " +:+ to_string thread_id +:+ " read: key=" +:+ to_string key
  +:+ ", value=" +:+ value.

(** The body of the loop of [reader], on the cache and the lines written
    so far.  [value] is a new empty string in each iteration. *)
Definition reader_body (st : LRUCache Z string * list string)
    (thread_id i : Z) : option (LRUCache Z string * list string) :=
  let value := "" in
  key ← key_of thread_id i;
  '(found, value, cache) ← get st.1 key value;
  Some (cache,
        if (found : bool) then st.2 ++ [line_of thread_id key value]
        else st.2).

(** The iterations of [for (int i = 0; i < 10; ++i)] in a thread: each
    is the thread's id and the value of [i]. *)
Definition thread_events (thread_id : Z) : list (Z * Z) :=
  (λ i, (thread_id, i)) <$> seqZ 0 10.

(** Loop bodies executed one after the other. *)
Fixpoint steps {S : Type} (body : S → Z → Z → option S)
    (evs : list (Z * Z)) (st : S) : option S :=
  match evs with
  | [] => Some st
  | (thread_id, i) :: evs' => st' ← body st thread_id i; steps body evs' st'
  end.

(** [void writer(LRUCache<int, std::string>& cache, int thread_id)] *)
Definition writer (cache : LRUCache Z string) (thread_id : Z)
  : option (LRUCache Z string) :=
  steps writer_body (thread_events thread_id) cache.

(** [void reader(LRUCache<int, std::string>& cache, int thread_id)]:
    the cache and the lines of [std::cout] after the call. *)
Definition reader (cache : LRUCache Z string) (thread_id : Z)
    (out : list string) : option (LRUCache Z string * list string) :=
  steps reader_body (thread_events thread_id) (cache, out).

(** The pair that iteration [i] of writer [thread_id] puts. *)
Definition pair_written (ev : Z * Z) : Z * string :=
  ((ev.1 * 100 + ev.2)%Z, value_of ev.1 ev.2).

(** The line that iteration [i] of reader [thread_id] writes when it
    finds what the writer with the same id put. *)
Definition line_read (ev : Z * Z) : string :=
  line_of ev.1 (ev.1 * 100 + ev.2)%Z (value_of ev.1 ev.2).

(** ** [main]: three writer threads, then three reader threads

    Every call of the cache holds the lock of the cache from its first
    statement to its return, so the calls of concurrent threads take
    place one after the other, in some order that keeps the order of each
    thread: an interleaving.  [join] ends the writers before the readers
    start. *)
Inductive interleave {A : Type} : list A → list A → list A → Prop :=
  | interleave_nil : interleave [] [] []
  | interleave_l x l1 l2 l :
      interleave l1 l2 l → interleave (x :: l1) l2 (x :: l)
  | interleave_r x l1 l2 l :
      interleave l1 l2 l → interleave l1 (x :: l2) (x :: l).

(** The order in which the loop iterations of threads 0, 1 and 2 happen. *)
Definition schedule (evs : list (Z * Z)) : Prop :=
  ∃ evs01,
    interleave (thread_events 0) (thread_events 1) evs01 ∧
    interleave evs01 (thread_events 2) evs.

(** [main] when the writers' iterations happen in the order [writes] and
    the readers' in the order [reads]: the cache at the end, and one
    entry for each line that a reader writes, in the order of the
    readers' calls of [get]. *)
Definition main (writes reads : list (Z * Z))
  : option (LRUCache Z string * list string) :=
  cache ← steps writer_body writes (LRUCache_new 10);
  steps reader_body reads (cache, []).

(** * The theorems at work on the cache of [main.cpp]: [LRUCache<int, std::string>] *)

Lemma get_absent_no_effect_witness :
  get {| capacity_ := 2;
         cache_items_ := [(2, (2%Z, "b")); (1, (1%Z, "a"))];
         cacheMap := <[2%Z := 2]> (<[1%Z := 1]> ∅) |} 3%Z "old"
  = Some (false, "old",
          {| capacity_ := 2;
             cache_items_ := [(2, (2%Z, "b")); (1, (1%Z, "a"))];
             cacheMap := <[2%Z := 2]> (<[1%Z := 1]> ∅) |}).
Proof. apply get_absent_no_effect. vm_compute. reflexivity. Defined.

Lemma get_present_moves_to_front_witness :
  ∃ v l1 l2,
    [(2, (2%Z, "b")); (1, (1%Z, "a"))] = l1 ++ (1, (1%Z, v)) :: l2 ∧
    (1%Z ∉ (l1 ++ l2).*2.*1) ∧
    last_put 1%Z [Put 1%Z "a"; Put 2%Z "b"] = Some v ∧
    get {| capacity_ := 2;
           cache_items_ := [(2, (2%Z, "b")); (1, (1%Z, "a"))];
           cacheMap := <[2%Z := 2]> (<[1%Z := 1]> ∅) |} 1%Z "old"
    = Some (true, v,
            {| capacity_ := 2;
               cache_items_ := (1, (1%Z, v)) :: l1 ++ l2;
               cacheMap := <[2%Z := 2]> (<[1%Z := 1]> ∅) |}).
Proof.
  refine (get_present_moves_to_front 2 [Put 1%Z "a"; Put 2%Z "b"]
            {| capacity_ := 2;
               cache_items_ := [(2, (2%Z, "b")); (1, (1%Z, "a"))];
               cacheMap := <[2%Z := 2]> (<[1%Z := 1]> ∅) |} 1%Z 1 "old" _ _).
  - vm_compute. reflexivity.
  - vm_compute. reflexivity.
Defined.

Lemma put_then_get_witness :
  1 ≤ 2 ∧
  ∃ c c' c'',
    run (LRUCache_new 2) [Put 1%Z "a"; Put 2%Z "b"; Get 1%Z ""] = Some c ∧
    put c 3%Z "c" = Some c' ∧
    get c' 3%Z "" = Some (true, "c", c'').
Proof. split; [lia|]. apply put_then_get. lia. Defined.

Lemma put_absent_evicts_lru_witness :
  (∃ l lru,
     [(3, (3%Z, "c")); (2, (2%Z, "b")); (1, (1%Z, "a"))] = l ++ [lru] ∧
     put {| capacity_ := 2;
            cache_items_ := [(2, (2%Z, "b")); (1, (1%Z, "a"))];
            cacheMap := <[2%Z := 2]> (<[1%Z := 1]> ∅) |} 3%Z "c"
     = Some {| capacity_ := 2;
               cache_items_ := l;
               cacheMap := delete (node_key lru)
                 (<[3%Z := 3]> (<[2%Z := 2]> (<[1%Z := 1]> ∅))) |} ∧
     length l = 2 ∧
     (node_key lru ∉ l.*2.*1) ∧
     delete (node_key lru)
       (<[3%Z := 3]> (<[2%Z := 2]> (<[1%Z := 1]> (∅ : gmap Z nat))))
       !! node_key lru = None ∧
     (∀ k', k' ∈ l.*2.*1 →
        last_access (node_key lru)
          ([Put 1%Z "a"; Put 2%Z "b"] ++ [Put 3%Z "c"])
        < last_access k' ([Put 1%Z "a"; Put 2%Z "b"] ++ [Put 3%Z "c"]))) ∧
  (∃ s,
     run (LRUCache_new 2)
       [Put 1%Z "a"; Put 2%Z "b"; Get 1%Z ""; Put 3%Z "c"] = Some s ∧
     keys s = [3%Z; 1%Z] ∧
     get s 2%Z "" = Some (false, "", s) ∧
     (∃ s', get s 1%Z "" = Some (true, "a", s')) ∧
     (∃ s', get s 3%Z "" = Some (true, "c", s'))).
Proof.
  split.
  - refine (proj2 (proj1 put_absent_evicts_lru 2 [Put 1%Z "a"; Put 2%Z "b"]
              {| capacity_ := 2;
                 cache_items_ := [(2, (2%Z, "b")); (1, (1%Z, "a"))];
                 cacheMap := <[2%Z := 2]> (<[1%Z := 1]> ∅) |} 3%Z "c" _ _) _).
    + vm_compute. reflexivity.
    + vm_compute. reflexivity.
    + vm_compute. lia.
  - apply (proj2 put_absent_evicts_lru); discriminate.
Defined.

Lemma put_present_updates_in_place_witness :
  (∃ v0 l1 l2,
     [(2, (2%Z, "b")); (1, (1%Z, "a"))] = l1 ++ (1, (1%Z, v0)) :: l2 ∧
     (1%Z ∉ (l1 ++ l2).*2.*1) ∧
     put {| capacity_ := 2;
            cache_items_ := [(2, (2%Z, "b")); (1, (1%Z, "a"))];
            cacheMap := <[2%Z := 2]> (<[1%Z := 1]> ∅) |} 1%Z "z"
     = Some {| capacity_ := 2;
               cache_items_ := (1, (1%Z, "z")) :: l1 ++ l2;
               cacheMap := <[2%Z := 2]> (<[1%Z := 1]> ∅) |}) ∧
  (∃ s,
     run (LRUCache_new 2) [Put 1%Z "a"; Put 2%Z "b"; Put 1%Z "z"] = Some s ∧
     size s = 2 ∧
     (∃ s', get s 1%Z "" = Some (true, "z", s')) ∧
     (∃ s', get s 2%Z "" = Some (true, "b", s'))).
Proof.
  split.
  - refine (proj1 put_present_updates_in_place 2 [Put 1%Z "a"; Put 2%Z "b"]
              {| capacity_ := 2;
                 cache_items_ := [(2, (2%Z, "b")); (1, (1%Z, "a"))];
                 cacheMap := <[2%Z := 2]> (<[1%Z := 1]> ∅) |} 1%Z 1 "z" _ _).
    + vm_compute. reflexivity.
    + vm_compute. reflexivity.
  - apply (proj2 put_present_updates_in_place). discriminate.
Defined.

Lemma remove_spec_witness :
  (∃ v l1 l2,
     [(2, (2%Z, "b")); (1, (1%Z, "a"))] = l1 ++ (2, (2%Z, v)) :: l2 ∧
     remove {| capacity_ := 2;
               cache_items_ := [(2, (2%Z, "b")); (1, (1%Z, "a"))];
               cacheMap := <[2%Z := 2]> (<[1%Z := 1]> ∅) |} 2%Z
     = Some {| capacity_ := 2;
               cache_items_ := l1 ++ l2;
               cacheMap := delete 2%Z (<[2%Z := 2]> (<[1%Z := 1]> ∅)) |} ∧
     (2%Z ∉ (l1 ++ l2).*2.*1) ∧
     delete 2%Z (<[2%Z := 2]> (<[1%Z := 1]> (∅ : gmap Z nat))) !! 2%Z
     = None) ∧
  remove {| capacity_ := 2;
            cache_items_ := [(1, (1%Z, "a"))];
            cacheMap := <[1%Z := 1]> ∅ |} 2%Z
  = Some {| capacity_ := 2;
            cache_items_ := [(1, (1%Z, "a"))];
            cacheMap := <[1%Z := 1]> ∅ |} ∧
  (∃ c',
     remove {| capacity_ := 2;
               cache_items_ := [(2, (2%Z, "b")); (1, (1%Z, "a"))];
               cacheMap := <[2%Z := 2]> (<[1%Z := 1]> ∅) |} 2%Z = Some c' ∧
     remove c' 2%Z = Some c').
Proof.
  split; [|split].
  - refine (proj1 remove_spec 2 [Put 1%Z "a"; Put 2%Z "b"]
              {| capacity_ := 2;
                 cache_items_ := [(2, (2%Z, "b")); (1, (1%Z, "a"))];
                 cacheMap := <[2%Z := 2]> (<[1%Z := 1]> ∅) |} 2%Z 2 _ _).
    + vm_compute. reflexivity.
    + vm_compute. reflexivity.
  - apply (proj1 (proj2 remove_spec)). vm_compute. reflexivity.
  - apply (proj2 (proj2 remove_spec) 2 [Put 1%Z "a"; Put 2%Z "b"]).
    vm_compute. reflexivity.
Defined.


(** * Properties of [main.cpp] *)

(** The thread ids for which no key of the ten overflows an [int]. *)
Lemma key_of_in_range (thread_id i : Z) :
  (-21474836 ≤ thread_id ≤ 21474836)%Z → (0 ≤ i < 10)%Z →
  key_of thread_id i = Some (thread_id * 100 + i)%Z.
Proof.
  intros Ht Hi. unfold key_of, int_checked.
  rewrite decide_True by lia. simpl. by rewrite decide_True by lia.
Qed.

Lemma thread_events_elem_of (thread_id : Z) (ev : Z * Z) :
  ev ∈ thread_events thread_id ↔ ev.1 = thread_id ∧ (0 ≤ ev.2 < 10)%Z.
Proof.
  unfold thread_events. rewrite list_elem_of_fmap. split.
  - intros (i & -> & Hi%elem_of_seqZ). simpl. lia.
  - intros [<- Hi]. exists ev.2. split; [by destruct ev|].
    apply elem_of_seqZ. lia.
Qed.

(** The iterations of [writer] are puts. *)
Lemma steps_writer_run (evs : list (Z * Z)) (c : LRUCache Z string) :
  Forall (λ ev, key_of ev.1 ev.2 = Some (pair_written ev).1) evs →
  steps writer_body evs c =
  run c ((λ e, Put e.1 e.2) <$> (pair_written <$> evs)).
Proof.
  intros Hevs. revert c.
  induction Hevs as [|[t i] evs Hev _ IH]; intros c; [done|].
  rewrite !fmap_cons. cbn [steps run exec].
  unfold pair_written in Hev |- *. cbn [fst snd] in Hev |- *.
  unfold writer_body. rewrite Hev. cbn [mbind option_bind].
  destruct (put c (t * 100 + i)%Z (value_of t i)) as [c'|];
    cbn [mbind option_bind]; [|done].
  apply IH.
Qed.

Lemma thread_events_in_range (thread_id : Z) :
  (-21474836 ≤ thread_id ≤ 21474836)%Z →
  Forall (λ ev, key_of ev.1 ev.2 = Some (pair_written ev).1)
    (thread_events thread_id).
Proof.
  intros Ht. apply Forall_forall. intros [t i] [Hev Hi]%thread_events_elem_of.
  simpl in *. subst t. by apply key_of_in_range.
Qed.

Lemma thread_events_keys_NoDup (thread_id : Z) :
  NoDup (pair_written <$> thread_events thread_id).*1.
Proof.
  unfold thread_events. rewrite <- !list_fmap_compose.
  apply NoDup_fmap_2_strong; [|apply NoDup_seqZ].
  intros i j _ _. simpl. lia.
Qed.

Lemma thread_events_length (thread_id : Z) :
  length (thread_events thread_id) = 10.
Proof. done. Qed.

Lemma writer_puts_ten (cap : nat) (calls : list (call Z string))
    (c : LRUCache Z string) (thread_id : Z) :
  run (LRUCache_new cap) calls = Some c →
  10 ≤ cap → (-21474836 ≤ thread_id ≤ 21474836)%Z →
  ∃ c' rest,
    writer c thread_id = Some c' ∧
    inv cap (calls ++ ((λ e, Put e.1 e.2) <$>
                         (pair_written <$> thread_events thread_id))) c' ∧
    entries c' = reverse (pair_written <$> thread_events thread_id) ++ rest ∧
    rest `sublist_of` entries c.
Proof.
  intros Hrun Hcap Ht. unfold writer.
  rewrite steps_writer_run by by apply thread_events_in_range.
  destruct (run_from_refines cap calls
    ((λ e, Put e.1 e.2) <$> (pair_written <$> thread_events thread_id)) c Hrun)
    as (c' & Hrun' & Hinv' & He').
  destruct (model_run_puts_front cap (entries c)
    (pair_written <$> thread_events thread_id)) as (rest & Hm & Hsub).
  { apply thread_events_keys_NoDup. }
  { by rewrite length_fmap, thread_events_length. }
  exists c', rest. rewrite He', Hm. done.
Qed.

(** X14. [writer] run on its own, on a cache of capacity 10 at least in
    any state a history leads to, with a thread id whose keys fit an
    [int]: it returns, and the first ten pairs of the list are then its
    ten pairs, key [thread_id * 100 + 9] first, each with the value
    ["Value_<thread_id>_<i>"]; the pairs behind them were in the cache
    before, in that order. *)
Theorem writer_leaves_its_ten_pairs (cap : nat) (calls : list (call Z string))
    (c : LRUCache Z string) (thread_id : Z) :
  run (LRUCache_new cap) calls = Some c →
  10 ≤ cap → (-21474836 ≤ thread_id ≤ 21474836)%Z →
  ∃ c' rest,
    writer c thread_id = Some c' ∧
    entries c' =
      reverse ((λ i, ((thread_id * 100 + i)%Z, value_of thread_id i))
                 <$> seqZ 0 10) ++ rest ∧
    rest `sublist_of` entries c ∧
    size c' ≤ cap.
Proof.
  intros Hrun Hcap Ht.
  destruct (writer_puts_ten cap calls c thread_id Hrun Hcap Ht)
    as (c' & rest & Hw & Hinv' & He' & Hsub).
  exists c', rest. split; [done|]. split; [|split; [done|]].
  - rewrite He'. unfold thread_events. by rewrite <- list_fmap_compose.
  - rewrite size_entries by apply Hinv'. by eapply inv_size.
Qed.

Lemma reader_body_eq (c c1 : LRUCache Z string) (out : list string)
    (thread_id i key : Z) (found : bool) (value : string) :
  key_of thread_id i = Some key → get c key "" = Some (found, value, c1) →
  reader_body (c, out) thread_id i =
  Some (c1, if found then out ++ [line_of thread_id key value] else out).
Proof.
  intros Hkey Hget. unfold reader_body. cbn [fst snd].
  rewrite Hkey. cbn [mbind option_bind]. by rewrite Hget.
Qed.

(** The iterations of [reader]: each writes the line of its key when the
    key is in the cache, with the value found there, and none of them
    changes what is found for any key. *)
Lemma steps_reader (cap : nat) (evs : list (Z * Z)) :
  Forall (λ ev, key_of ev.1 ev.2 = Some (pair_written ev).1) evs →
  ∀ (calls : list (call Z string)) (c : LRUCache Z string)
    (es : list (Z * string)) (out : list string),
    inv cap calls c → (∀ k, assoc k (entries c) = assoc k es) →
    ∃ calls' c',
      steps reader_body evs (c, out) =
      Some (c', out ++ omap (λ ev, line_of ev.1 (pair_written ev).1
                                     <$> assoc (pair_written ev).1 es) evs) ∧
      inv cap calls' c' ∧
      (∀ k, assoc k (entries c') = assoc k es) ∧
      length (entries c') = length (entries c).
Proof.
  induction 1 as [|[t i] evs Hev _ IH]; intros calls c es out Hinv Hes.
  - exists calls, c. simpl. by rewrite app_nil_r.
  - unfold pair_written in Hev. cbn [fst snd] in Hev.
    destruct (get_step cap calls c (t * 100 + i)%Z "" Hinv)
      as ([[found value] c1] & Hget & Hinv1 & He1).
    destruct (get_refines c (t * 100 + i)%Z "" (inv_wf _ _ _ Hinv))
      as (c2 & Hget2 & _).
    rewrite Hget in Hget2. cbn [snd] in Hinv1, He1.
    destruct (IH (calls ++ [Get (t * 100 + i)%Z ""]) c1 es
                (if found then out ++ [line_of t (t * 100 + i)%Z value]
                 else out) Hinv1)
      as (calls' & c' & Hsteps & Hinv' & Hes' & Hlen').
    { intros k. by rewrite He1, assoc_model_get. }
    exists calls', c'. split; [|split; [done|split; [done|]]].
    + cbn [steps]. rewrite (reader_body_eq c c1 out t i _ found value Hev Hget).
      cbn [mbind option_bind]. rewrite Hsteps. f_equal. f_equal.
      cbn [omap list_omap]. unfold pair_written. cbn [fst snd].
      rewrite <- Hes.
      destruct (assoc (t * 100 + i)%Z (entries c)) as [v|];
        injection Hget2 as -> -> _; cbn [fmap option_fmap option_map];
        [by rewrite <- app_assoc|done].
    + rewrite Hlen', He1. apply length_model_get.
      apply (wf_keys c), Hinv.
Qed.

Lemma omap_thread_events {B : Type} (f : Z * Z → option B) (thread_id : Z) :
  omap f (thread_events thread_id) = omap (λ i, f (thread_id, i)) (seqZ 0 10).
Proof.
  unfold thread_events. induction (seqZ 0 10) as [|i l IH]; [done|].
  rewrite fmap_cons. cbn [omap list_omap]. by rewrite IH.
Qed.

(** X15. [reader] run on its own, in any state a history leads to, with
    a thread id whose keys fit an [int]: for [i] from 0 to 9 in turn it
    writes the line of key [thread_id * 100 + i] exactly when that key is
    in the cache, with the value stored for it, and no line otherwise;
    afterwards the size is the same and every key is found, or not, with
    the same value as before. *)
Theorem reader_prints_what_is_cached (cap : nat) (calls : list (call Z string))
    (c : LRUCache Z string) (thread_id : Z) (out : list string) :
  run (LRUCache_new cap) calls = Some c →
  (-21474836 ≤ thread_id ≤ 21474836)%Z →
  ∃ c',
    reader c thread_id out =
    Some (c', out ++ omap (λ i, line_of thread_id (thread_id * 100 + i)%Z
                                  <$> assoc (thread_id * 100 + i)%Z (entries c))
                          (seqZ 0 10)) ∧
    size c' = size c ∧
    ∀ k value, get_result c' k value = get_result c k value.
Proof.
  intros Hrun Ht. pose proof (run_inv cap calls c Hrun) as Hinv.
  destruct (steps_reader cap (thread_events thread_id)
              (thread_events_in_range thread_id Ht) calls c (entries c) out Hinv)
    as (calls' & c' & Hsteps & Hinv' & Hes' & Hlen'); [done|].
  exists c'. split; [|split].
  - unfold reader. by rewrite Hsteps, omap_thread_events.
  - rewrite !size_entries by (apply Hinv' || apply Hinv). done.
  - intros k value.
    rewrite !get_result_assoc by (apply Hinv' || apply Hinv). by rewrite Hes'.
Qed.

Lemma omap_all_Some {A B : Type} (f : A → option B) (g : A → B) (l : list A) :
  (∀ x, x ∈ l → f x = Some (g x)) → omap f l = g <$> l.
Proof.
  induction l as [|x l IH]; intros Hf; [done|].
  cbn [omap list_omap]. rewrite Hf by by left. rewrite fmap_cons.
  f_equal. apply IH. intros y Hy. apply Hf. by right.
Qed.

(** X16. [writer] and then [reader] with the same thread id, on a cache
    of capacity 10 at least, nothing else in between: [reader] writes
    the ten lines ["Thread <id> read: key=<id*100+i>, value=Value_<id>_<i>"],
    for [i] from 0 to 9 in this order. *)
Theorem writer_then_reader (cap : nat) (calls : list (call Z string))
    (c : LRUCache Z string) (thread_id : Z) (out : list string) :
  run (LRUCache_new cap) calls = Some c →
  10 ≤ cap → (-21474836 ≤ thread_id ≤ 21474836)%Z →
  ∃ c' c'',
    writer c thread_id = Some c' ∧
    reader c' thread_id out =
    Some (c'', out ++ ((λ i, line_of thread_id (thread_id * 100 + i)%Z
                               (value_of thread_id i)) <$> seqZ 0 10)).
Proof.
  intros Hrun Hcap Ht.
  destruct (writer_puts_ten cap calls c thread_id Hrun Hcap Ht)
    as (c' & rest & Hw & Hinv' & He' & Hsub).
  destruct (steps_reader cap (thread_events thread_id)
              (thread_events_in_range thread_id Ht) _ c' (entries c') out Hinv')
    as (calls'' & c'' & Hsteps & _); [done|].
  exists c', c''. split; [done|]. unfold reader. rewrite Hsteps.
  f_equal. f_equal. f_equal.
  rewrite (omap_all_Some _ line_read).
  - unfold thread_events. by rewrite <- list_fmap_compose.
  - intros ev Hev. unfold line_read.
    rewrite (assoc_elem_of_NoDup _ (value_of ev.1 ev.2)); [done| |].
    + apply (wf_keys c'), Hinv'.
    + rewrite He'. apply elem_of_app. left. apply elem_of_reverse.
      apply list_elem_of_fmap. by exists ev.
Qed.

(** ** [main] under every schedule *)

Lemma interleave_Permutation {A : Type} (l1 l2 l : list A) :
  interleave l1 l2 l → l ≡ₚ l1 ++ l2.
Proof.
  induction 1 as [|x l1 l2 l _ IH|x l1 l2 l _ IH]; [done| |].
  - simpl. by rewrite IH.
  - by rewrite IH, Permutation_middle.
Qed.

Lemma schedule_Permutation (evs : list (Z * Z)) :
  schedule evs →
  evs ≡ₚ thread_events 0 ++ thread_events 1 ++ thread_events 2.
Proof.
  intros (evs01 & H01%interleave_Permutation & H2%interleave_Permutation).
  by rewrite H2, H01, <- app_assoc.
Qed.

Lemma schedule_in_range (evs : list (Z * Z)) :
  schedule evs →
  Forall (λ ev, key_of ev.1 ev.2 = Some (pair_written ev).1) evs.
Proof.
  intros ->%schedule_Permutation. rewrite !Forall_app.
  repeat split; apply thread_events_in_range; lia.
Qed.

Lemma schedule_keys_NoDup (evs : list (Z * Z)) :
  schedule evs → NoDup (pair_written <$> evs).*1.
Proof.
  intros ->%schedule_Permutation.
  apply (bool_decide_unpack _). by vm_compute.
Qed.

Lemma schedule_length (evs : list (Z * Z)) : schedule evs → length evs = 30.
Proof. by intros ->%schedule_Permutation. Qed.

Lemma NoDup_fmap_inj_on {A B : Type} (f : A → B) (l : list A) (x y : A) :
  NoDup (f <$> l) → x ∈ l → y ∈ l → f x = f y → x = y.
Proof.
  intros Hnd Hx Hy Hf. apply list_elem_of_split in Hx as (l1 & l2 & ->).
  rewrite fmap_app, fmap_cons in Hnd.
  apply NoDup_app in Hnd as (_ & Hdisj & Hnd2).
  apply NoDup_cons in Hnd2 as [Hn2 _].
  apply elem_of_app in Hy as [Hy|Hy].
  - destruct (Hdisj (f y)); [apply list_elem_of_fmap; by exists y|].
    rewrite <- Hf. by left.
  - apply elem_of_cons in Hy as [->|Hy]; [done|].
    destruct Hn2. rewrite Hf. apply list_elem_of_fmap. by exists y.
Qed.

Lemma omap_filter_fmap {A B : Type} (f : A → option B) (g : A → B)
    (P : A → Prop) `{∀ x, Decision (P x)} (l : list A) :
  (∀ x, x ∈ l → f x = if decide (P x) then Some (g x) else None) →
  omap f l = g <$> filter P l.
Proof.
  induction l as [|x l IH]; intros Hf; [done|].
  cbn [omap list_omap]. rewrite Hf by by left.
  rewrite IH by (intros y Hy; apply Hf; by right).
  destruct (decide (P x)).
  - by rewrite filter_cons_True.
  - by rewrite filter_cons_False.
Qed.

Lemma filter_elem_of_Permutation {A : Type} `{EqDecision A} (l d : list A) :
  NoDup l → NoDup d → d ⊆ l → filter (λ x, x ∈ d) l ≡ₚ d.
Proof.
  intros Hl Hd Hsub. apply NoDup_Permutation; [by apply NoDup_filter|done|].
  intros x. rewrite list_elem_of_filter. split; [by intros [? _]|].
  intros Hx. split; [done|]. by apply Hsub.
Qed.


(** X18. [writer] on a new cache of any capacity, also one below the
    ten pairs it puts or 0: the cache then holds the last [cap] of the ten
    pairs, key [thread_id * 100 + 9] first, and its size is the smaller
    of [cap] and 10. *)
Theorem writer_on_new_cache (cap : nat) (thread_id : Z) :
  (-21474836 ≤ thread_id ≤ 21474836)%Z →
  ∃ c,
    writer (LRUCache_new cap) thread_id = Some c ∧
    entries c =
      take cap (reverse ((λ i, ((thread_id * 100 + i)%Z, value_of thread_id i))
                           <$> seqZ 0 10)) ∧
    size c = Nat.min cap 10.
Proof.
  intros Ht. unfold writer.
  rewrite steps_writer_run by by apply thread_events_in_range.
  destruct (run_defined cap ((λ e, Put e.1 e.2) <$>
              (pair_written <$> thread_events thread_id)))
    as (c & Hrun & Hinv).
  assert (entries c
          = take cap (reverse (pair_written <$> thread_events thread_id)))
    as He.
  { rewrite (run_refines cap _ c Hrun). apply model_run_puts.
    apply thread_events_keys_NoDup. }
  exists c. split; [done|]. split.
  - rewrite He. unfold thread_events. by rewrite <- list_fmap_compose.
  - rewrite size_entries by apply Hinv.
    by rewrite He, length_take, length_reverse, length_fmap,
      thread_events_length.
Qed.

(** * The further properties at work *)

Lemma list_in_access_order_witness :
  last_access 2%Z [Put 1%Z "a"; Put 2%Z "b"; Get 1%Z ""]
  < last_access 1%Z [Put 1%Z "a"; Put 2%Z "b"; Get 1%Z ""].
Proof.
  refine (list_in_access_order 2 [Put 1%Z "a"; Put 2%Z "b"; Get 1%Z ""]
            {| capacity_ := 2;
               cache_items_ := [(1, (1%Z, "a")); (2, (2%Z, "b"))];
               cacheMap := <[2%Z := 2]> (<[1%Z := 1]> ∅) |}
            [] [] [] 1%Z 2%Z _ _).
  - vm_compute. reflexivity.
  - vm_compute. reflexivity.
Defined.

Lemma puts_of_distinct_keys_witness :
  ∃ c : LRUCache Z string,
    run (LRUCache_new 2) [Put 1%Z "a"; Put 2%Z "b"; Put 3%Z "c"] = Some c ∧
    entries c = [(3%Z, "c"); (2%Z, "b")] ∧
    get_result c 2%Z "" = Some (true, "b") ∧
    get_result c 1%Z "" = Some (false, "").
Proof.
  destruct (puts_of_distinct_keys 2 [(1%Z, "a"); (2%Z, "b"); (3%Z, "c")])
    as (c & Hrun & He & Hin & Hout).
  - apply (bool_decide_unpack _). by vm_compute.
  - exists c. split; [exact Hrun|]. split; [exact He|]. split.
    + apply Hin. apply (bool_decide_unpack _). by vm_compute.
    + apply Hout. apply (bool_decide_unpack _). by vm_compute.
Defined.

Lemma remove_then_get_witness :
  ∃ c c' : LRUCache Z string,
    run (LRUCache_new 2) [Put 1%Z "a"; Put 2%Z "b"] = Some c ∧
    remove c 1%Z = Some c' ∧
    get_result c' 1%Z "" = Some (false, "") ∧
    get_result c' 2%Z "" = get_result c 2%Z "".
Proof.
  destruct (remove_then_get 2 [Put 1%Z "a"; Put 2%Z "b"]) as (c & Hrun & Hk).
  destruct (Hk 1%Z) as (c' & Hrem & Hgone & Hother).
  exists c, c'. do 3 (split; [done|]). apply Hother. discriminate.
Defined.

Lemma put_keeps_other_keys_witness :
  ∃ c c' : LRUCache Z string,
    run (LRUCache_new 2) [Put 1%Z "a"] = Some c ∧
    put c 2%Z "b" = Some c' ∧
    get_result c' 1%Z "" = get_result c 1%Z "".
Proof.
  destruct (put_keeps_other_keys 2 [Put 1%Z "a"]) as (c & Hrun & Hk).
  destruct (Hk 2%Z "b") as (c' & Hput & Hother).
  exists c, c'. do 2 (split; [done|]).
  apply (Hother 1%Z ""); [discriminate|].
  right. vm_compute in Hrun. injection Hrun as <-. vm_compute. lia.
Defined.

Lemma entry_survives_calls_witness :
  ∃ c : LRUCache Z string,
    run (LRUCache_new 3) ([] ++ Put 1%Z "a" :: [Put 2%Z "b"; Get 5%Z ""])
    = Some c ∧
    get_result c 1%Z "" = Some (true, "a").
Proof.
  apply entry_survives_calls.
  - intros o Ho. apply elem_of_cons in Ho as [->|Ho]; [done|].
    apply elem_of_cons in Ho as [->|Ho]; [done|].
    by apply elem_of_nil in Ho.
  - simpl. lia.
Defined.

Lemma puts_within_capacity_all_stay_witness :
  ∃ (c' : LRUCache Z string) rest,
    run {| capacity_ := 3;
           cache_items_ := [(1, (1%Z, "a"))];
           cacheMap := <[1%Z := 1]> ∅ |}
      [Put 2%Z "b"; Put 3%Z "c"] = Some c' ∧
    entries c' = [(3%Z, "c"); (2%Z, "b")] ++ rest ∧
    rest `sublist_of` [(1%Z, "a")] ∧
    ∀ k v value,
      (k, v) ∈ [(2%Z, "b"); (3%Z, "c")] →
      get_result c' k value = Some (true, v).
Proof.
  refine (puts_within_capacity_all_stay 3 [Put 1%Z "a"]
            {| capacity_ := 3;
               cache_items_ := [(1, (1%Z, "a"))];
               cacheMap := <[1%Z := 1]> ∅ |}
            [(2%Z, "b"); (3%Z, "c")] _ _ _).
  - vm_compute. reflexivity.
  - apply (bool_decide_unpack _). by vm_compute.
  - simpl. lia.
Defined.

Lemma writer_leaves_its_ten_pairs_witness :
  ∃ c' rest,
    writer (LRUCache_new 10) 1 = Some c' ∧
    entries c' =
      reverse ((λ i, ((1 * 100 + i)%Z, value_of 1 i)) <$> seqZ 0 10) ++ rest ∧
    rest `sublist_of` [] ∧
    size c' ≤ 10.
Proof.
  refine (writer_leaves_its_ten_pairs 10 [] (LRUCache_new 10) 1 _ _ _).
  - reflexivity.
  - lia.
  - lia.
Defined.

Lemma reader_prints_what_is_cached_witness :
  ∃ c',
    reader {| capacity_ := 10;
              cache_items_ := [(1, (101%Z, "hello"))];
              cacheMap := <[101%Z := 1]> ∅ |} 1 []
    = Some (c', [] ++ omap (λ i, line_of 1 (1 * 100 + i)%Z
                                   <$> assoc (1 * 100 + i)%Z [(101%Z, "hello")])
                           (seqZ 0 10)) ∧
    size c' = 1 ∧
    ∀ k value,
      get_result c' k value =
      get_result {| capacity_ := 10;
                    cache_items_ := [(1, (101%Z, "hello"))];
                    cacheMap := <[101%Z := 1]> ∅ |} k value.
Proof.
  refine (reader_prints_what_is_cached 10 [Put 101%Z "hello"]
            {| capacity_ := 10;
               cache_items_ := [(1, (101%Z, "hello"))];
               cacheMap := <[101%Z := 1]> ∅ |} 1 [] _ _).
  - vm_compute. reflexivity.
  - lia.
Defined.

Lemma writer_then_reader_witness :
  ∃ c' c'',
    writer (LRUCache_new 10) 2 = Some c' ∧
    reader c' 2 [] =
    Some (c'', [] ++ ((λ i, line_of 2 (2 * 100 + i)%Z (value_of 2 i))
                        <$> seqZ 0 10)).
Proof.
  refine (writer_then_reader 10 [] (LRUCache_new 10) 2 [] _ _ _).
  - reflexivity.
  - lia.
  - lia.
Defined.


Lemma writer_on_new_cache_witness :
  ∃ c,
    writer (LRUCache_new 3) 0 = Some c ∧
    entries c =
      take 3 (reverse ((λ i, ((0 * 100 + i)%Z, value_of 0 i)) <$> seqZ 0 10)) ∧
    size c = Nat.min 3 10.
Proof. apply writer_on_new_cache. lia. Defined.
